(** * Planning core of [cleanup/collapse_ci_commits.py]

    A shallow embedding of the pure part of the CI-commit squasher:
    [partition_ci_runs], [build_squash_set], [make_squash_plan] and
    [render_todo_lines], together with the properties the specification
    states about them.

    Python dictionaries with a fixed key set ([Commit], [SquashPlan]) are
    records; Python lists are lists; the [set] of oids is a [gset string];
    a [for] loop that mutates local accumulators is a left fold over an
    explicit loop state. *)

From Stdlib Require Import Ascii String.
From stdpp Require Import base list strings gmap sets fin_sets pretty.

(** ** Data shapes *)

(** [class Commit(TypedDict)] *)
Record Commit : Type := mkCommit {
  oid : string;
  short_id : string;
  author_email : string;
  message : string
}.

(** A run is the Python list [current_run]; the result of the partitioner
    is a list of such lists. *)
Abbreviation Run := (list Commit).

(** [class SquashPlan(TypedDict)] *)
Record SquashPlan : Type := mkSquashPlan {
  commits : list Commit;
  squash_set : gset string;
  run_count : nat;
  total_squash_count : nat
}.

(** Python truthiness of a list, as in [if not commits:] and
    [if current_run:]. *)
Definition truthy {A} (l : list A) : bool :=
  match l with [] => false | _ :: _ => true end.

(** ** Run partitioner *)

Section Partition.
Variables target_author target_message : string.

(** [c["author_email"] == target_author and c["message"] == target_message] *)
Definition is_ci (c : Commit) : bool :=
  bool_decide (author_email c = target_author)
  && bool_decide (message c = target_message).

(** The two accumulators of the loop, [(runs, current_run)]. *)
Definition loop_state : Type := (list Run * Run)%type.

(** One iteration of [for c in commits:]. *)
Definition partition_step (st : loop_state) (c : Commit) : loop_state :=
  let '(runs, current_run) := st in
  if is_ci c then (runs, current_run ++ [c])
  else if truthy current_run then (runs ++ [current_run], [])
  else (runs, current_run).

(** The code after the loop: [if current_run: runs.append(current_run)]. *)
Definition partition_flush (st : loop_state) : list Run :=
  let '(runs, current_run) := st in
  if truthy current_run then runs ++ [current_run] else runs.

Definition partition_ci_runs (cs : list Commit) : list Run :=
  if truthy cs
  then partition_flush (fold_left partition_step cs ([], []))
  else [].
End Partition.

(** ** Squash planner *)

(** One iteration of [for run in runs:] in [build_squash_set]:
    [if len(run) > 1: squash_oids.update(c["oid"] for c in run[1:])]. *)
Definition squash_step (squash_oids : gset string) (run : Run) : gset string :=
  if bool_decide (1 < length run)
  then squash_oids ∪ list_to_set (oid <$> drop 1 run)
  else squash_oids.

Definition build_squash_set (runs : list Run) : gset string :=
  fold_left squash_step runs ∅.

(** Outcome of a Python call: it returns a value or it raises. *)
Inductive outcome (A : Type) : Type :=
| Returns (a : A)
| Raises (what : string).
Arguments Returns {A} a.
Arguments Raises {A} what.

(** [make_squash_plan]; the logging calls have no effect on the result. *)
Definition make_squash_plan (cs : list Commit) (runs : list Run) : SquashPlan :=
  if truthy runs then
    let s := build_squash_set runs in
    {| commits := cs; squash_set := s;
       run_count := length runs; total_squash_count := size s |}
  else
    {| commits := cs; squash_set := ∅;
       run_count := 0; total_squash_count := 0 |}.

(** The body of [make_squash_plan] has no [raise], no [assert] and no
    partial operation (slicing, [len], [set.update] and dictionary
    construction are total), so every call returns. *)
Definition call_make_squash_plan (cs : list Commit) (runs : list Run)
  : outcome SquashPlan :=
  Returns (make_squash_plan cs runs).

(** ** Todo renderer *)

Definition newline : string := String "010"%char EmptyString.

(** [str.join]: the separator goes between consecutive elements only. *)
Fixpoint join (sep : string) (l : list string) : string :=
  match l with
  | [] => ""
  | [x] => x
  | x :: rest => x +:+ sep +:+ join sep rest
  end.

(** ["fixup" if c["oid"] in plan["squash_set"] else "pick"] *)
Definition action (plan : SquashPlan) (c : Commit) : string :=
  if bool_decide (oid c ∈ squash_set plan) then "fixup" else "pick".

(** [f"{action} {c['short_id']} {c['message']}"] *)
Definition todo_line (plan : SquashPlan) (c : Commit) : string :=
  action plan c +:+ " " +:+ short_id c +:+ " " +:+ message c.

(** The loop of [render_todo_lines]: [lines.append(...)] for each commit. *)
Definition todo_lines (plan : SquashPlan) : list string :=
  fold_left (fun lines c => lines ++ [todo_line plan c]) (commits plan) [].

(** [return "\n".join(lines) + "\n"] *)
Definition render_todo_lines (plan : SquashPlan) : string :=
  join newline (todo_lines plan) +:+ newline.

(** ** Vocabulary of the specification *)

(** A commit matches the target signature when its
    [(author_email, message)] pair equals it. *)
Definition matches_target (target_author target_message : string) (c : Commit) : Prop :=
  author_email c = target_author ∧ message c = target_message.

#[global] Instance matches_target_dec ta tm c : Decision (matches_target ta tm c) :=
  and_dec (decide (author_email c = ta)) (decide (message c = tm)).

(** Closed form of the partitioning loop: the runs that the remaining
    iterations and the final flush add to [runs] when the loop is about to
    visit [cs] with [current_run = cur]. *)
Fixpoint runs_from (ta tm : string) (cur : Run) (cs : list Commit) : list Run :=
  match cs with
  | [] => if truthy cur then [cur] else []
  | c :: cs' =>
      if is_ci ta tm c then runs_from ta tm (cur ++ [c]) cs'
      else (if truthy cur then [cur] else []) ++ runs_from ta tm [] cs'
  end.

(** [weave [g0; g1; ...; gn] [r1; ...; rn]] is [g0 ++ r1 ++ g1 ++ ... ++ rn ++ gn]:
    the sequence in which the runs sit side by side, in order, separated
    by the gaps. *)
Fixpoint weave (gaps : list Run) (runs : list Run) : list Commit :=
  match gaps with
  | [] => []
  | g :: gaps' =>
      g ++ match runs with
           | [] => []
           | r :: runs' => r ++ weave gaps' runs'
           end
  end.

(** The plan the orchestration builds: [make_squash_plan(commits,
    partition_ci_runs(commits, author, message))]. *)
Definition plan_for (ta tm : string) (cs : list Commit) : SquashPlan :=
  make_squash_plan cs (partition_ci_runs ta tm cs).

(** [c] is a member of [run] other than its first. *)
Definition later_member (c : Commit) (run : Run) : Prop :=
  ∃ i, 0 < i ∧ run !! i = Some c.

(** The fold set described commit by commit: a commit of the sequence has
    its identifier in the set exactly when it is a later member of a run
    longer than one, and the first member of a run never has. *)
Definition fold_set_by_commit (ta tm : string) (cs : list Commit) : Prop :=
  let runs := partition_ci_runs ta tm cs in
  let plan := make_squash_plan cs runs in
  (∀ c, c ∈ cs →
     (oid c ∈ squash_set plan ↔
      ∃ run, run ∈ runs ∧ 1 < length run ∧ later_member c run))
  ∧ (∀ run c, run ∈ runs → head run = Some c → oid c ∉ squash_set plan).

(** The identifiers a run hands to the fold set: those of all members but
    the first. *)
Definition folded_oids (run : Run) : list string := oid <$> drop 1 run.

(** [s.startswith(p)] *)
Fixpoint starts_with (p s : string) : bool :=
  match p, s with
  | EmptyString, _ => true
  | String _ _, EmptyString => false
  | String a p', String b s' => Ascii.eqb a b && starts_with p' s'
  end.

(** Recognisers for rendered instruction lines: the action token is the
    first word of the line. *)
Definition is_fixup_line (l : string) : Prop := starts_with "fixup " l = true.
Definition is_pick_line (l : string) : Prop := starts_with "pick " l = true.

(** Every fold instruction has a keep instruction somewhere before it. *)
Definition fixups_follow_a_pick (lines : list string) : Prop :=
  ∀ i l, lines !! i = Some l → is_fixup_line l →
    ∃ j l', j < i ∧ lines !! j = Some l' ∧ is_pick_line l'.

(** The membership check the specification asks of the planner: some run
    has a member that is not in the full sequence. *)
Definition foreign_run (cs : list Commit) (runs : list Run) : Prop :=
  ∃ run c, run ∈ runs ∧ c ∈ run ∧ c ∉ cs.

(** Number of newline characters of a text, which is its number of
    newline-terminated physical lines. *)
Fixpoint count_newlines (s : string) : nat :=
  match s with
  | EmptyString => 0
  | String a s' => (if Ascii.eqb a "010"%char then 1 else 0) + count_newlines s'
  end.

(** A text contains a newline character. *)
Definition has_newline (s : string) : Prop := 0 < count_newlines s.

(** [Σ over runs (max(0, length − 1))], over the integers. *)
Definition fold_total (runs : list Run) : Z :=
  foldr (λ run acc, Z.max 0 (Z.of_nat (length run) - 1) + acc)%Z 0%Z runs.

(** ** Scenarios of the specification, run on the embedding *)

Module Scenario.
Definition ci (o s : string) : Commit := mkCommit o s "ci@example.com" "CI: test run".
Definition human (o s m : string) : Commit := mkCommit o s "dev@example.com" m.
Definition A := ci "aaaa1111" "aaaa".
Definition B := ci "bbbb2222" "bbbb".
Definition C := human "cccc3333" "cccc" "Fix parser".
Definition D := ci "dddd4444" "dddd".
Definition part := partition_ci_runs "ci@example.com" "CI: test run".
Definition plan_of (cs : list Commit) := make_squash_plan cs (part cs).
Definition history : list Commit := [A; B; C; D].
End Scenario.

(** Inputs outside what the orchestration builds: two CI commits
    carrying the same identifier, and a run handed to the planner
    although its commits are not in the sequence. *)
Module Probe.
Definition X1 : Commit := mkCommit "x" "a" "ci" "m".
Definition X2 : Commit := mkCommit "x" "b" "ci" "m".
Definition repeated : list Commit := [X1; X2].
Definition stray_runs : list Run := [[Scenario.A; Scenario.B]].
End Probe.

(** A commit whose message has a subject and a body. [commit_from_pygit2]
    stores [c.message.strip()]: [str.strip] trims the two ends only, and
    this message neither starts nor ends with white space. *)
Module Multiline.
Definition body : string := "Bump deps" +:+ newline +:+ newline +:+ "Refresh the lock file".
Definition E : Commit := mkCommit "eeee5555" "eeee" "dev@example.com" body.
Definition plan : SquashPlan := Scenario.plan_of [Scenario.A; Scenario.B; E].
End Multiline.

(** [text.split("\n")]: the pieces between newline characters. *)
Fixpoint split_newlines (s : string) : list string :=
  match s with
  | EmptyString => [EmptyString]
  | String a s' =>
      if Ascii.eqb a "010"%char then EmptyString :: split_newlines s'
      else match split_newlines s' with
           | [] => [String a EmptyString]
           | piece :: pieces => String a piece :: pieces
           end
  end.

(** The planner rejects runs that are not drawn from the sequence. *)
Definition planner_aborts_on_foreign_run (cs : list Commit) (runs : list Run) : Prop :=
  foreign_run cs runs → ∃ what, call_make_squash_plan cs runs = Raises what.

(** ** One-pass reading of the plan *)

(** [c] sits in the sequence directly after a commit [p], and both match
    the target signature. *)
Definition follows_a_match (ta tm : string) (cs : list Commit) (c : Commit) : Prop :=
  ∃ i p, cs !! i = Some p ∧ cs !! S i = Some c
         ∧ matches_target ta tm p ∧ matches_target ta tm c.

(** The commits of [cs] that match and come directly after a matching
    commit; [prev] tells whether the commit before [cs] matched. *)
Fixpoint folded_from (ta tm : string) (prev : bool) (cs : list Commit) : list Commit :=
  match cs with
  | [] => []
  | c :: cs' =>
      if is_ci ta tm c
      then (if prev then [c] else []) ++ folded_from ta tm true cs'
      else folded_from ta tm false cs'
  end.

(** The commits of [cs] left once those of [folded_from] are removed. *)
Fixpoint kept_from (ta tm : string) (prev : bool) (cs : list Commit) : list Commit :=
  match cs with
  | [] => []
  | c :: cs' =>
      if is_ci ta tm c
      then (if prev then [] else [c]) ++ kept_from ta tm true cs'
      else c :: kept_from ta tm false cs'
  end.

(** The commits whose instruction is [pick]: those the rebase keeps. *)
Definition picked (plan : SquashPlan) : list Commit :=
  filter (λ c, oid c ∉ squash_set plan) (commits plan).

#[global] Instance is_fixup_line_dec l : Decision (is_fixup_line l) :=
  decide (starts_with "fixup " l = true).
#[global] Instance is_pick_line_dec l : Decision (is_pick_line l) :=
  decide (starts_with "pick " l = true).

(** ** Reporting *)

(** [log_plan_summary]: the messages handed to [log.info], in order.
    [pretty] writes a number in decimal, as an f-string does. *)
Definition log_plan_summary (runs : list Run) (squash_set : gset string) : list string :=
  let total_ci := sum_list (length <$> runs) in
  ["Found " +:+ pretty (length runs) +:+ " run(s) of CI commits ("
     +:+ pretty total_ci +:+ " commits total)"]
  ++ imap (λ i run,
       let squash_count := (Z.of_nat (length run) - 1)%Z in
       "  Run " +:+ pretty (S i) +:+ ": " +:+ pretty (length run)
         +:+ " commits, will squash " +:+ pretty squash_count
         +:+ " into the first") runs
  ++ ["Will squash " +:+ pretty (size squash_set) +:+ " total commits"].

(** The messages [make_squash_plan] logs on its way to the plan. *)
Definition make_squash_plan_log (runs : list Run) : list string :=
  if truthy runs then log_plan_summary runs (build_squash_set runs)
  else ["No matching CI commits found"].

(** ** Orchestration *)

(** How a call ends: it returns a value, or [sys.exit(code)] is raised. *)
Inductive completion (A : Type) : Type :=
| Finished (a : A)
| SysExit (code : Z).
Arguments Finished {A} a.
Arguments SysExit {A} code.

(** Python truthiness of a [str]: only the empty string is false. *)
Definition str_truthy (s : string) : bool :=
  match s with EmptyString => false | String _ _ => true end.

(** [class Config(TypedDict)] *)
Module Config.
Record t : Type := mk {
  base_commit : string;
  author_email : string;
  message : string;
  repo_path : string
}.
End Config.

(** [validate_config] *)
Definition validate_config (base author msg : string) : completion Config.t :=
  if negb (str_truthy base) || negb (str_truthy author) || negb (str_truthy msg)
  then SysExit 1
  else Finished (Config.mk base author msg ".").

(** What the code reads of a [pygit2] commit object: [str(c.id)],
    [c.short_id] (bytes or text, depending on the library version),
    [c.author.email] and [c.message]. *)
Inductive short_id_repr : Type :=
| ShortBytes (b : string)
| ShortStr (s : string).

Record GitCommit : Type := mkGitCommit {
  git_id : string;
  git_short_id : short_id_repr;
  git_author_email : string;
  git_message : string
}.

(** What [subprocess.run] gives back: a completed process, or an
    exception (a subclass of [Exception]). *)
Inductive run_result : Type :=
| Completed (returncode : Z) (stderr : string)
| RunRaised (what : string).

(** Calls that leave the process. *)
Inductive event : Type :=
| WriteFile (path content : string)
| Subprocess (argv : list string) (cwd : string) (sequence_editor : string)
| Unlink (path : string).

Section Orchestration.
Context {Repository Rev : Type}.

(** The library and system calls the script relies on. A [pygit2] lookup
    answers [None] where the library raises [KeyError], the one failure
    the script handles; logging and the usage text are left out. *)
Record Externals : Type := mkExternals {
  str_strip : string → string;
  bytes_decode : string → string;
  pygit2_Repository : string → option Repository;
  revparse_single : Repository → string → option Rev;
  walk_since : Repository → Rev → list GitCommit;
  workdir : Repository → string;
  temp_name : string;
  subprocess_run : list string → string → string → run_result
}.

Context (E : Externals).

(** [commit_from_pygit2] *)
Definition commit_from_pygit2 (c : GitCommit) : Commit :=
  let short := match git_short_id c with
               | ShortBytes b => bytes_decode E b
               | ShortStr s => s
               end in
  {| oid := git_id c;
     short_id := short;
     author_email := git_author_email c;
     message := str_strip E (git_message c) |}.

(** [load_repo] *)
Definition load_repo (path : string) : completion Repository :=
  match pygit2_Repository E path with
  | Some repo => Finished repo
  | None => SysExit 1
  end.

(** [resolve_base_commit] *)
Definition resolve_base_commit (repo : Repository) (base_ref : string) : completion Rev :=
  match revparse_single E repo base_ref with
  | Some commit => Finished commit
  | None => SysExit 1
  end.

(** [fetch_commits_since_base]: the walk from [HEAD], oldest first, with
    the base hidden, each commit converted. *)
Definition fetch_commits_since_base (repo : Repository) (base_commit : Rev) : list Commit :=
  commit_from_pygit2 <$> walk_since E repo base_commit.

(** [write_todo_file]: the file written and the path returned. *)
Definition write_todo_file (content : string) : list event * string :=
  ([WriteFile (temp_name E) content], temp_name E).

(** [execute_rebase]. [sys.exit] inside the [try] is not caught by
    [except Exception]; the [finally] clause unlinks the file on every
    path. *)
Definition execute_rebase (repo_path base_commit_ref todo_path : string)
  : list event * completion unit :=
  let argv := ["git"; "rebase"; "-i"; base_commit_ref] in
  let editor := "cat " +:+ todo_path +:+ " >" in
  let ending :=
    match subprocess_run E argv repo_path editor with
    | Completed returncode _ =>
        if bool_decide (returncode ≠ 0%Z) then SysExit 1 else Finished tt
    | RunRaised _ => SysExit 1
    end in
  ([Subprocess argv repo_path editor; Unlink todo_path], ending).

(** [main], on [sys.argv]. *)
Definition main (argv : list string) : list event * completion unit :=
  match argv with
  | [_; a1; a2; a3] =>
      match validate_config a1 a2 a3 with
      | SysExit code => ([], SysExit code)
      | Finished config =>
          match load_repo (Config.repo_path config) with
          | SysExit code => ([], SysExit code)
          | Finished repo =>
              match resolve_base_commit repo (Config.base_commit config) with
              | SysExit code => ([], SysExit code)
              | Finished base_commit =>
                  let cs := fetch_commits_since_base repo base_commit in
                  if negb (truthy cs) then ([], Finished tt)
                  else
                    let runs := partition_ci_runs (Config.author_email config)
                                                  (Config.message config) cs in
                    let plan := make_squash_plan cs runs in
                    if bool_decide (total_squash_count plan = 0) then ([], Finished tt)
                    else
                      let todo := render_todo_lines plan in
                      let '(written, todo_path) := write_todo_file todo in
                      let '(ran, ending) :=
                        execute_rebase (workdir E repo) (Config.base_commit config)
                                       todo_path in
                      (written ++ ran, ending)
              end
          end
      end
  | _ => ([], SysExit 1)
  end.

(** The conditions under which [main] gets as far as the commits of the
    history: four arguments, none of them empty, a repository in the
    current directory, and a base reference that resolves in it. *)
Definition reaches_history (argv : list string) (base author msg : string)
    (repo : Repository) (rev : Rev) : Prop :=
  (∃ prog, argv = [prog; base; author; msg])
  ∧ base ≠ "" ∧ author ≠ "" ∧ msg ≠ ""
  ∧ pygit2_Repository E "." = Some repo
  ∧ revparse_single E repo base = Some rev.
End Orchestration.

(** The ASCII characters [str.isspace] accepts: tab, line feed, vertical
    tab, form feed, carriage return, the four separators 28 to 31, and
    the space. *)
Definition ascii_isspace (a : ascii) : bool :=
  match a with
  | "009" | "010" | "011" | "012" | "013"
  | "028" | "029" | "030" | "031" | " " => true
  | _ => false
  end%char.

(** [str.strip] on text made of ASCII characters: white space is removed
    from both ends. *)
Fixpoint lstrip_ascii (s : string) : string :=
  match s with
  | EmptyString => EmptyString
  | String a s' => if ascii_isspace a then lstrip_ascii s' else s
  end.

Definition strip_ascii (s : string) : string :=
  String.rev (lstrip_ascii (String.rev (lstrip_ascii s))).

(** A repository with three commits after the base, the last two made by
    the CI; the rebase succeeds. *)
Module Demo.
Definition raw (i s e m : string) : GitCommit := mkGitCommit i (ShortStr s) e m.
Definition world : @Externals unit unit :=
  {| str_strip := strip_ascii;
     bytes_decode := id;
     pygit2_Repository := λ path, if bool_decide (path = ".") then Some () else None;
     revparse_single := λ _ ref, if bool_decide (ref = "main") then Some () else None;
     walk_since := λ _ _,
       [raw "1111" "11" "dev@example.com" ("Fix parser" +:+ newline);
        raw "2222" "22" "ci@example.com" ("CI: test run" +:+ newline);
        raw "3333" "33" "ci@example.com" ("CI: test run" +:+ newline)];
     workdir := λ _, "/repo/";
     temp_name := "/tmp/todo.txt";
     subprocess_run := λ _ _ _, Completed 0 "" |}.
Definition argv : list string := ["collapse"; "main"; "ci@example.com"; "CI: test run"].
End Demo.

Example scenario1_runs :
  Scenario.part Scenario.history = [[Scenario.A; Scenario.B]; [Scenario.D]].
Proof. reflexivity. Qed.

Example scenario1_render :
  render_todo_lines (Scenario.plan_of Scenario.history) =
  "pick aaaa CI: test run" +:+ newline +:+
  "fixup bbbb CI: test run" +:+ newline +:+
  "pick cccc Fix parser" +:+ newline +:+
  "pick dddd CI: test run" +:+ newline.
Proof. vm_compute. reflexivity. Qed.

Example scenario1_fold_set :
  squash_set (Scenario.plan_of Scenario.history) = {[ oid Scenario.B ]}.
Proof. vm_compute. reflexivity. Qed.

Example scenario2_no_match :
  Scenario.part [Scenario.C; Scenario.C] = []
  ∧ total_squash_count (Scenario.plan_of [Scenario.C; Scenario.C]) = 0.
Proof. split; reflexivity. Qed.

Example scenario3_single_match :
  Scenario.part [Scenario.A] = [[Scenario.A]]
  ∧ total_squash_count (Scenario.plan_of [Scenario.A]) = 0
  ∧ run_count (Scenario.plan_of [Scenario.A]) = 1.
Proof. split_and!; reflexivity. Qed.

Example scenario4_empty_history :
  Scenario.part [] = [] ∧ squash_set (Scenario.plan_of []) = ∅.
Proof. split; reflexivity. Qed.

Example scenario5_two_runs :
  let cs := [Scenario.ci "01" "01"; Scenario.ci "02" "02"; Scenario.ci "03" "03";
             Scenario.C;
             Scenario.ci "04" "04"; Scenario.ci "05" "05"] in
  total_squash_count (Scenario.plan_of cs) = 3
  ∧ run_count (Scenario.plan_of cs) = 2.
Proof. split; vm_compute; reflexivity. Qed.

Example multiline_render :
  split_newlines (render_todo_lines Multiline.plan)
  = ["pick aaaa CI: test run"; "fixup bbbb CI: test run";
     "pick eeee Bump deps"; ""; "Refresh the lock file"; ""].
Proof. vm_compute. reflexivity. Qed.

(** ** The partitioning loop *)

Section PartitionFacts.
Context (ta tm : string).

Local Abbreviation is_ci := (is_ci ta tm).
Local Abbreviation matches := (matches_target ta tm).
Local Abbreviation runs_from := (runs_from ta tm).
Local Abbreviation partition := (partition_ci_runs ta tm).

Lemma is_ci_true c : is_ci c = true ↔ matches c.
Proof.
  unfold is_ci, matches_target.
  rewrite andb_true_iff, !bool_decide_eq_true. done.
Qed.

Lemma is_ci_false c : is_ci c = false ↔ ¬ matches c.
Proof. rewrite <- is_ci_true. destruct (is_ci c); naive_solver. Qed.

Lemma truthy_false {A} (l : list A) : truthy l = false ↔ l = [].
Proof. destruct l; naive_solver. Qed.

(** Loop invariant: after any number of iterations the runs still to
    be emitted are those of the closed form. *)
Lemma partition_loop cs : ∀ runs cur,
  partition_flush (fold_left (partition_step ta tm) cs (runs, cur))
  = runs ++ runs_from cur cs.
Proof.
  induction cs as [|c cs IH]; intros runs cur; simpl.
  - destruct (truthy cur); [done | by rewrite app_nil_r].
  - destruct (is_ci c); [apply IH |].
    destruct (truthy cur) eqn:Hcur; rewrite IH.
    + by rewrite <- app_assoc.
    + apply truthy_false in Hcur as ->. done.
Qed.

Lemma partition_closed_form cs : partition cs = runs_from [] cs.
Proof.
  unfold partition_ci_runs. destruct cs as [|c cs]; [done |].
  change (truthy (c :: cs)) with true. cbv iota.
  apply (partition_loop (c :: cs) [] []).
Qed.

(** A block of matching commits is swallowed by the open run. *)
Lemma runs_from_matching r : ∀ cur cs,
  Forall matches r → runs_from cur (r ++ cs) = runs_from (cur ++ r) cs.
Proof.
  induction r as [|c r IH]; intros cur cs Hr; simpl.
  - by rewrite app_nil_r.
  - apply Forall_cons in Hr as [Hc Hr]. apply is_ci_true in Hc as ->.
    rewrite IH by done. by rewrite <- app_assoc.
Qed.

(** A non-matching commit closes the open run: what comes before it
    and what comes after it are partitioned independently. *)
Lemma runs_from_split pre : ∀ cur x post,
  ¬ matches x →
  runs_from cur (pre ++ x :: post) = runs_from cur pre ++ runs_from [] post.
Proof.
  induction pre as [|c pre IH]; intros cur x post Hx; simpl.
  - apply is_ci_false in Hx as ->. done.
  - destruct (is_ci c); [by apply IH |].
    rewrite (IH [] x post Hx). by rewrite app_assoc.
Qed.

(** A sequence made of matching commits only is one run. *)
Lemma runs_from_all_matching r :
  r ≠ [] → Forall matches r → runs_from [] r = [r].
Proof.
  intros Hne Hr. rewrite <- (app_nil_r r) at 1.
  rewrite runs_from_matching by done. simpl. by destruct r.
Qed.

(** The runs, laid end to end, are the open run followed by the
    matching commits still to come. *)
Lemma concat_runs_from cs : ∀ cur,
  concat (runs_from cur cs) = cur ++ filter matches cs.
Proof.
  induction cs as [|c cs IH]; intros cur; simpl.
  - destruct cur; simpl; by rewrite ?app_nil_r.
  - destruct (is_ci c) eqn:Hc.
    + rewrite IH, filter_cons_True by by apply is_ci_true.
      by rewrite <- app_assoc.
    + rewrite concat_app, IH, filter_cons_False by by apply is_ci_false.
      destruct cur; simpl; by rewrite ?app_nil_r.
Qed.

(** The sequence is the runs woven with gaps of non-matching commits. *)
Lemma runs_from_weave cs : ∀ cur,
  ∃ gaps,
    length gaps = S (length (runs_from cur cs))
    ∧ Forall (Forall (λ c, ¬ matches c)) gaps
    ∧ cur ++ cs = weave gaps (runs_from cur cs)
    ∧ (cur ≠ [] → head gaps = Some []).
Proof.
  induction cs as [|c cs IH]; intros cur; simpl.
  - destruct cur as [|a cur]; simpl.
    + exists [[]]. split_and!; auto.
    + exists [[]; []]. split_and!; auto; simpl; by rewrite ?app_nil_r.
  - destruct (is_ci c) eqn:Hc.
    + destruct (IH (cur ++ [c])) as (gaps & Hlen & Hgaps & Heq & Hhead).
      exists gaps. split_and!; auto.
      * by rewrite <- Heq, <- app_assoc.
      * intros _. apply Hhead. by destruct cur.
    + apply is_ci_false in Hc.
      destruct (IH []) as (gaps & Hlen & Hgaps & Heq & _).
      destruct gaps as [|g gaps]; [done |].
      apply Forall_cons in Hgaps as [Hg Hgaps]. simpl in Heq.
      destruct cur as [|a cur]; simpl.
      * exists ((c :: g) :: gaps). split_and!.
        -- done.
        -- by repeat constructor.
        -- simpl. by f_equal.
        -- done.
      * exists ([] :: (c :: g) :: gaps). split_and!.
        -- simpl in *. lia.
        -- by repeat constructor.
        -- simpl. by rewrite <- Heq.
        -- done.
Qed.

(** Where a run sits: it is a block of the sequence, bounded on each
    side by a non-matching commit or by an end of the sequence, and the
    runs before it are those of the part of the sequence before it. *)
Lemma runs_from_locate cs : ∀ cur k run,
  Forall matches cur →
  runs_from cur cs !! k = Some run →
  ∃ pre post,
    cur ++ cs = pre ++ run ++ post
    ∧ run ≠ [] ∧ Forall matches run
    ∧ (∀ c, last pre = Some c → ¬ matches c)
    ∧ (∀ c, head post = Some c → ¬ matches c)
    ∧ length (runs_from [] pre) = k.
Proof.
  induction cs as [|c cs IH]; intros cur k run Hcur Hk; simpl in Hk.
  - destruct cur as [|a cur]; [done |].
    destruct k; [|done]. injection Hk as <-.
    exists [], []. split_and!; try done; by rewrite app_nil_r.
  - destruct (is_ci c) eqn:Hc.
    + apply is_ci_true in Hc.
      destruct (IH (cur ++ [c]) k run) as (pre & post & Heq & H); [|done|].
      { apply Forall_app. split; [done | by apply Forall_singleton]. }
      exists pre, post. split; [|done]. by rewrite <- Heq, <- app_assoc.
    + apply is_ci_false in Hc.
      destruct cur as [|a cur]; simpl in Hk.
      * destruct (IH [] k run) as (pre & post & Heq & Hne & Hrun & Hl & Hh & Hn);
          [done.. |].
        exists (c :: pre), post. simpl in Heq. split_and!; try done.
        -- simpl. by rewrite Heq.
        -- intros d. destruct pre as [|p pre]; [naive_solver |].
           intros Hd. by apply Hl.
        -- simpl. rewrite (proj2 (is_ci_false c) Hc). done.
      * destruct k as [|k].
        -- injection Hk as <-. exists [], (c :: cs).
           split_and!; try done. naive_solver.
        -- destruct (IH [] k run) as (pre & post & Heq & Hne & Hrun & Hl & Hh & Hn);
             [done.. |].
           simpl in Heq. exists ((a :: cur) ++ c :: pre), post.
           split_and!; try done.
           ++ rewrite Heq at 1. by rewrite <- !app_assoc.
           ++ intros d. rewrite last_app_cons.
              destruct pre as [|p pre]; [naive_solver |].
              intros Hd. by apply Hl.
           ++ rewrite runs_from_split by done.
              rewrite runs_from_all_matching by done.
              simpl. by rewrite Hn.
Qed.

(** A maximal block of matching commits is a run of its own, between
    the runs of what precedes it and the runs of what follows it. *)
Lemma runs_from_around pre run post :
  run ≠ [] → Forall matches run →
  (∀ c, last pre = Some c → ¬ matches c) →
  (∀ c, head post = Some c → ¬ matches c) →
  runs_from [] (pre ++ run ++ post)
  = runs_from [] pre ++ run :: runs_from [] post.
Proof.
  intros Hne Hrun Hpre Hpost.
  assert (runs_from [] (run ++ post) = run :: runs_from [] post) as Hmid.
  { rewrite runs_from_matching by done. simpl.
    destruct post as [|x post]; simpl.
    - by destruct run.
    - rewrite (proj2 (is_ci_false x)) by by apply Hpost.
      by destruct run. }
  destruct pre as [|x pre _] using rev_ind; [done |].
  rewrite <- app_assoc. simpl.
  assert (¬ matches x) as Hx by (apply Hpre; by rewrite last_snoc).
  rewrite !runs_from_split by done.
  rewrite Hmid. simpl. by rewrite app_nil_r.
Qed.
End PartitionFacts.

(** ** The squash set *)

Lemma squash_step_union acc run :
  squash_step acc run = acc ∪ list_to_set (folded_oids run).
Proof.
  unfold squash_step, folded_oids. case_bool_decide as Hlen; [done |].
  destruct run as [|c [|d run]]; simpl in *; [set_solver.. | lia].
Qed.

(** Loop invariant of [build_squash_set]. *)
Lemma squash_loop runs : ∀ acc,
  fold_left squash_step runs acc
  = acc ∪ list_to_set (concat (folded_oids <$> runs)).
Proof.
  induction runs as [|run runs IH]; intros acc; simpl.
  - set_solver.
  - rewrite IH, squash_step_union, list_to_set_app_L. set_solver.
Qed.

Lemma build_squash_set_list runs :
  build_squash_set runs = list_to_set (concat (folded_oids <$> runs)).
Proof. unfold build_squash_set. rewrite squash_loop. set_solver. Qed.

(** Both branches of [make_squash_plan] store the set of [build_squash_set]. *)
Lemma plan_squash_set cs runs :
  squash_set (make_squash_plan cs runs) = build_squash_set runs.
Proof. by destruct runs. Qed.

Lemma plan_commits cs runs : commits (make_squash_plan cs runs) = cs.
Proof. by destruct runs. Qed.

Lemma plan_run_count cs runs : run_count (make_squash_plan cs runs) = length runs.
Proof. by destruct runs. Qed.

Lemma plan_total_squash_count cs runs :
  total_squash_count (make_squash_plan cs runs) = size (build_squash_set runs).
Proof. by destruct runs. Qed.

Lemma later_member_drop c run : later_member c run ↔ c ∈ drop 1 run.
Proof.
  unfold later_member. rewrite list_elem_of_lookup. split.
  - intros (i & Hi & Hc). exists (i - 1). rewrite lookup_drop.
    by replace (1 + (i - 1)) with i by lia.
  - intros (i & Hc). rewrite lookup_drop in Hc. exists (1 + i). split; [lia | done].
Qed.

Lemma later_member_long c run : later_member c run → 1 < length run.
Proof.
  intros (i & Hi & Hc). apply lookup_lt_Some in Hc. lia.
Qed.

Lemma elem_of_concat {A} (x : A) (ls : list (list A)) :
  x ∈ concat ls ↔ ∃ l, l ∈ ls ∧ x ∈ l.
Proof.
  induction ls as [|l ls IH]; simpl.
  - set_solver.
  - rewrite elem_of_app, IH. set_solver.
Qed.

(** Membership in the squash set, identifier by identifier. *)
Lemma elem_of_build_squash_set x runs :
  x ∈ build_squash_set runs ↔
  ∃ run c, run ∈ runs ∧ 1 < length run ∧ later_member c run ∧ oid c = x.
Proof.
  rewrite build_squash_set_list, elem_of_list_to_set, elem_of_concat. split.
  - intros (l & Hl & Hx). apply list_elem_of_fmap in Hl as (run & -> & Hrun).
    apply list_elem_of_fmap in Hx as (c & -> & Hc).
    apply later_member_drop in Hc.
    exists run, c. eauto using later_member_long.
  - intros (run & c & Hrun & _ & Hc & <-). exists (folded_oids run). split.
    + apply list_elem_of_fmap. eauto.
    + apply list_elem_of_fmap. exists c. split; [done |]. by apply later_member_drop.
Qed.

(** ** Runs drawn from a sequence with distinct identifiers *)

Lemma folded_oids_concat runs :
  concat (folded_oids <$> runs) = oid <$> concat (drop 1 <$> runs).
Proof.
  induction runs as [|run runs IH]; csimpl; [done |].
  by rewrite fmap_app, IH.
Qed.

(** The members of the runs are their first members together with
    their later members. *)
Lemma concat_heads_tails {A} (ls : list (list A)) :
  concat ls ≡ₚ concat (take 1 <$> ls) ++ concat (drop 1 <$> ls).
Proof.
  induction ls as [|l ls IH]; csimpl; [done |].
  rewrite IH. rewrite <- (take_drop 1 l) at 1.
  rewrite <- !app_assoc. f_equiv.
  rewrite !app_assoc. f_equiv. apply Permutation_app_comm.
Qed.

Lemma NoDup_fmap_elem_inj {A B} (f : A → B) (l : list A) x y :
  NoDup (f <$> l) → x ∈ l → y ∈ l → f x = f y → x = y.
Proof.
  induction l as [|a l IH]; simpl; intros Hnd Hx Hy Hxy; [by inv Hx |].
  apply NoDup_cons in Hnd as [Ha Hnd].
  apply elem_of_cons in Hx as [-> | Hx]; apply elem_of_cons in Hy as [-> | Hy];
    try done; [| | by apply IH].
  - destruct Ha. rewrite Hxy. apply list_elem_of_fmap. eauto.
  - destruct Ha. rewrite <- Hxy. apply list_elem_of_fmap. eauto.
Qed.

Section DistinctOids.
Context (ta tm : string) (cs : list Commit).

Local Abbreviation runs := (partition_ci_runs ta tm cs).

Lemma partition_concat_filter :
  concat runs = filter (matches_target ta tm) cs.
Proof. rewrite partition_closed_form. apply concat_runs_from. Qed.

Lemma run_member_in_commits run c : run ∈ runs → c ∈ run → c ∈ cs.
Proof.
  intros Hrun Hc.
  assert (c ∈ concat runs) as Hin by (apply elem_of_concat; eauto).
  rewrite partition_concat_filter in Hin.
  by apply list_elem_of_filter in Hin as [_ ?].
Qed.

Lemma later_member_in_commits run c : run ∈ runs → later_member c run → c ∈ cs.
Proof.
  intros Hrun (i & _ & Hc). apply (run_member_in_commits run); [done |].
  apply list_elem_of_lookup. eauto.
Qed.

Hypothesis distinct : NoDup (oid <$> cs).

Lemma run_oids_NoDup : NoDup (oid <$> concat runs).
Proof.
  apply (sublist_NoDup _ (oid <$> cs)); [done |].
  apply fmap_sublist. rewrite partition_concat_filter. apply sublist_filter.
Qed.

Lemma heads_tails_NoDup :
  NoDup ((oid <$> concat (take 1 <$> runs)) ++ concat (folded_oids <$> runs)).
Proof.
  rewrite folded_oids_concat, <- fmap_app, <- concat_heads_tails.
  apply run_oids_NoDup.
Qed.

Lemma folded_oids_NoDup : NoDup (concat (folded_oids <$> runs)).
Proof. pose proof heads_tails_NoDup as H. by apply NoDup_app in H as (_ & _ & ?). Qed.

(** The first member of a run is not folded. *)
Lemma head_not_squashed run c :
  run ∈ runs → head run = Some c → oid c ∉ build_squash_set runs.
Proof.
  intros Hrun Hc. rewrite build_squash_set_list, elem_of_list_to_set.
  pose proof heads_tails_NoDup as H. apply NoDup_app in H as (_ & H & _).
  apply H. apply list_elem_of_fmap. exists c. split; [done |].
  apply elem_of_concat. exists (take 1 run). split.
  - apply list_elem_of_fmap. eauto.
  - destruct run; simplify_eq/=. set_solver.
Qed.

(** A commit of the sequence is folded exactly when it is itself a
    later member of a run. *)
Lemma squashed_iff_later_member c :
  c ∈ cs →
  oid c ∈ build_squash_set runs ↔
  ∃ run, run ∈ runs ∧ 1 < length run ∧ later_member c run.
Proof.
  intros Hc. rewrite elem_of_build_squash_set. split.
  - intros (run & d & Hrun & Hlen & Hd & Hoid).
    assert (d = c) as ->; [|eauto].
    eapply NoDup_fmap_elem_inj; eauto using later_member_in_commits.
  - intros (run & Hrun & Hlen & Hlater). eauto 10.
Qed.

(** With distinct identifiers the set has one element per later member. *)
Lemma size_build_squash_set :
  size (build_squash_set runs) = length (concat (folded_oids <$> runs)).
Proof.
  rewrite build_squash_set_list. apply size_list_to_set, folded_oids_NoDup.
Qed.
End DistinctOids.

Lemma length_folded_oids_total runs :
  Z.of_nat (length (concat (folded_oids <$> runs))) = fold_total runs.
Proof.
  induction runs as [|run runs IH]; csimpl; [done |].
  rewrite length_app, Nat2Z.inj_add, IH. unfold folded_oids.
  rewrite length_fmap, length_drop. lia.
Qed.

(** ** Properties of the planning core *)

(** The distinctness of the identifiers, which the data model grants,
    is what the commit-by-commit description rests on: were two commits
    of the sequence to carry the same identifier, the first member of a
    run would have its identifier in the fold set. *)
Lemma fold_set_by_commit_fails_on_repeated_oid :
  ¬ fold_set_by_commit "ci" "m" Probe.repeated.
Proof.
  intros [_ Hhead].
  apply (Hhead Probe.repeated Probe.X1); [by apply list_elem_of_here | done |].
  rewrite plan_squash_set. apply elem_of_build_squash_set.
  exists Probe.repeated, Probe.X2. split_and!; [by apply list_elem_of_here | simpl; lia | | done].
  exists 1. split; [lia | done].
Qed.

(** C1. The identifiers of a commit sequence are pairwise distinct (the
    invariant of the data model); for such a sequence, a commit has its
    identifier in the fold set of
    [make_squash_plan(commits, partition_ci_runs(commits, ...))] exactly
    when it belongs to a run longer than one and is not its first
    member, and the first member of a run never has. For every sequence,
    the fold set is the set of the identifiers of all members but the
    first of every run: a run of length [n > 1] hands over those of its
    last [n - 1] members, a run of length 1 nothing. *)
Theorem fold_set_characterised ta tm cs :
  let runs := partition_ci_runs ta tm cs in
  let plan := make_squash_plan cs runs in
  (∀ x, x ∈ squash_set plan ↔
        ∃ run c, run ∈ runs ∧ 1 < length run ∧ later_member c run ∧ oid c = x)
  ∧ squash_set plan = list_to_set (concat (folded_oids <$> runs))
  ∧ (NoDup (oid <$> cs) → fold_set_by_commit ta tm cs).
Proof.
  intros runs plan. subst plan. split_and!.
  - intros x. rewrite plan_squash_set. apply elem_of_build_squash_set.
  - rewrite plan_squash_set. apply build_squash_set_list.
  - intros Hnd. split.
    + intros c Hc. rewrite plan_squash_set. by apply squashed_iff_later_member.
    + intros run c Hrun Hc. rewrite plan_squash_set.
      by apply (head_not_squashed ta tm cs Hnd run c).
Qed.

Lemma fold_set_characterised_witness :
  NoDup (oid <$> Scenario.history)
  ∧ fold_set_by_commit "ci@example.com" "CI: test run" Scenario.history.
Proof.
  assert (NoDup (oid <$> Scenario.history)) as Hnd.
  { apply (bool_decide_unpack _). vm_compute. exact I. }
  split; [exact Hnd |].
  apply (fold_set_characterised "ci@example.com" "CI: test run" Scenario.history).
  exact Hnd.
Defined.

(** C3, as stated, fails: handed a run whose commits are absent from the
    (empty) sequence, the planner returns a plan; it does not raise. *)
Lemma planner_returns_on_foreign_run :
  ¬ planner_aborts_on_foreign_run [] Probe.stray_runs.
Proof.
  intros Habort. destruct Habort as [what Hraise]; [|discriminate Hraise].
  exists [Scenario.A; Scenario.B], Scenario.A. split_and!.
  - by apply list_elem_of_here.
  - by apply list_elem_of_here.
  - apply not_elem_of_nil.
Qed.

(** C3 (amended). [make_squash_plan] performs no membership check: when a
    run has a member that is not present in the sequence, the call still
    returns a plan; its [commits] field is the sequence it was given, its
    fold set is built from the runs alone, and the absent commit has its
    identifier in the fold set whenever it is a later member of its run. *)
Theorem planner_ignores_foreign_members cs runs run c :
  run ∈ runs → c ∈ run → c ∉ cs →
  ∃ plan,
    call_make_squash_plan cs runs = Returns plan
    ∧ commits plan = cs
    ∧ run_count plan = length runs
    ∧ squash_set plan = build_squash_set runs
    ∧ (later_member c run → oid c ∈ squash_set plan).
Proof.
  intros Hrun Hc Hforeign. exists (make_squash_plan cs runs).
  split_and!; [done | apply plan_commits | apply plan_run_count | apply plan_squash_set |].
  intros Hlater. rewrite plan_squash_set. apply elem_of_build_squash_set.
  exists run, c. eauto using later_member_long.
Qed.

Lemma planner_ignores_foreign_members_witness :
  ∃ plan,
    call_make_squash_plan [] Probe.stray_runs = Returns plan
    ∧ commits plan = []
    ∧ run_count plan = 1
    ∧ squash_set plan = build_squash_set Probe.stray_runs
    ∧ (later_member Scenario.B [Scenario.A; Scenario.B] → oid Scenario.B ∈ squash_set plan).
Proof.
  apply (planner_ignores_foreign_members [] Probe.stray_runs
           [Scenario.A; Scenario.B] Scenario.B).
  - apply list_elem_of_here.
  - apply list_elem_of_further, list_elem_of_here.
  - apply not_elem_of_nil.
Defined.

(** C4. The runs of [partition_ci_runs], laid end to end in output order,
    are exactly the commits of the sequence whose
    [(author_email, message)] pair equals the target signature, in their
    original order; and the runs do not overlap: the sequence is the runs
    woven, in order, with gaps made of non-matching commits. *)
Theorem partition_concat_is_matching_subsequence ta tm cs :
  let runs := partition_ci_runs ta tm cs in
  concat runs = filter (matches_target ta tm) cs
  ∧ ∃ gaps,
      length gaps = S (length runs)
      ∧ Forall (Forall (λ c, ¬ matches_target ta tm c)) gaps
      ∧ cs = weave gaps runs.
Proof.
  intros runs. subst runs. split; [apply partition_concat_filter |].
  rewrite partition_closed_form.
  destruct (runs_from_weave ta tm cs []) as (gaps & Hlen & Hgaps & Heq & _).
  exists gaps. done.
Qed.

(** C5. Every run of [partition_ci_runs] is non-empty, is a contiguous
    block of the sequence, has only matching members, and is maximal: the
    commit just before it and the commit just after it, when they exist,
    do not match; the runs before it are those of the part of the
    sequence before it, and the runs after it those of the part after it.
    A non-matching commit separates the runs on its two sides: the runs
    of the sequence are those of what precedes it followed by those of
    what follows it, so that two matching commits with a non-matching
    commit between them lie in two runs. A sequence made of one matching
    commit yields one run of length 1. *)
Theorem partition_runs_are_maximal ta tm cs :
  let partition := partition_ci_runs ta tm in
  let matches := matches_target ta tm in
  (∀ k run, partition cs !! k = Some run →
     run ≠ [] ∧ Forall matches run
     ∧ ∃ pre post,
         cs = pre ++ run ++ post
         ∧ (∀ c, last pre = Some c → ¬ matches c)
         ∧ (∀ c, head post = Some c → ¬ matches c)
         ∧ partition pre = take k (partition cs)
         ∧ partition post = drop (S k) (partition cs))
  ∧ (∀ pre x post, cs = pre ++ x :: post → ¬ matches x →
       partition cs = partition pre ++ partition post)
  ∧ (∀ a x b, cs = [a; x; b] → matches a → ¬ matches x → matches b →
       partition cs = [[a]; [b]])
  ∧ (∀ c, cs = [c] → matches c → partition cs = [[c]]).
Proof.
  intros partition matches. subst partition matches. split_and!.
  - intros k run Hk. rewrite partition_closed_form in Hk.
    destruct (runs_from_locate ta tm cs [] k run) as
      (pre & post & Heq & Hne & Hrun & Hl & Hh & Hn); [done.. |].
    simpl in Heq. split_and!; [done.. |].
    exists pre, post. split_and!; [done.. | |].
    + rewrite !partition_closed_form, Heq, runs_from_around by done.
      by rewrite <- Hn, take_app_length.
    + rewrite !partition_closed_form, Heq, runs_from_around by done.
      rewrite <- Hn. rewrite cons_middle, app_assoc.
      rewrite drop_app_length'; [done |]. rewrite length_app. simpl. lia.
  - intros pre x post -> Hx. rewrite !partition_closed_form.
    by apply runs_from_split.
  - intros a x b -> Ha Hx Hb. rewrite partition_closed_form.
    change [a; x; b] with ([a] ++ x :: [b]).
    rewrite runs_from_split by done.
    by rewrite !runs_from_all_matching by (done || by apply Forall_singleton).
  - intros c -> Hc. rewrite partition_closed_form.
    apply runs_from_all_matching; [done | by apply Forall_singleton].
Qed.

Lemma partition_runs_are_maximal_witness :
  Scenario.part Scenario.history !! 0 = Some [Scenario.A; Scenario.B]
  ∧ [Scenario.A; Scenario.B] ≠ []
  ∧ Forall (matches_target "ci@example.com" "CI: test run") [Scenario.A; Scenario.B].
Proof.
  split; [reflexivity |].
  pose proof (proj1 (partition_runs_are_maximal "ci@example.com" "CI: test run"
                       Scenario.history) 0 [Scenario.A; Scenario.B] eq_refl)
    as (Hne & Hall & _).
  exact (conj Hne Hall).
Defined.

(** C6. When the identifiers of the sequence are pairwise distinct,
    [total_squash_count] of the plan built from the runs of
    [partition_ci_runs] is the sum over the runs of
    [max(0, length - 1)], and it is the cardinality of the fold set. *)
Theorem fold_count_is_sum_over_runs ta tm cs :
  NoDup (oid <$> cs) →
  let runs := partition_ci_runs ta tm cs in
  let plan := make_squash_plan cs runs in
  Z.of_nat (total_squash_count plan) = fold_total runs
  ∧ total_squash_count plan = size (squash_set plan).
Proof.
  intros Hnd runs plan. subst plan.
  rewrite plan_total_squash_count, plan_squash_set. split; [|done].
  subst runs. rewrite size_build_squash_set by done.
  apply length_folded_oids_total.
Qed.

Lemma fold_count_is_sum_over_runs_witness :
  NoDup (oid <$> Scenario.history)
  ∧ Z.of_nat (total_squash_count (Scenario.plan_of Scenario.history))
    = fold_total (Scenario.part Scenario.history).
Proof.
  assert (NoDup (oid <$> Scenario.history)) as Hnd.
  { apply (bool_decide_unpack _). vm_compute. exact I. }
  split; [exact Hnd |].
  exact (proj1 (fold_count_is_sum_over_runs "ci@example.com" "CI: test run"
                  Scenario.history Hnd)).
Defined.

(** C7. With no runs, [make_squash_plan] returns (it does not raise) the
    plan whose fold set is empty, whose [run_count] and
    [total_squash_count] are 0 and whose [commits] field is the sequence
    it was given. *)
Theorem plan_of_no_runs cs :
  call_make_squash_plan cs []
  = Returns {| commits := cs; squash_set := ∅;
               run_count := 0; total_squash_count := 0 |}.
Proof. reflexivity. Qed.

(** ** The renderer *)

(** Loop invariant of [render_todo_lines]: appending one line per visited
    commit builds the image of the visited commits. *)
Lemma append_loop_fmap {A B} (f : A → B) (l : list A) : ∀ acc,
  fold_left (λ lines c, lines ++ [f c]) l acc = acc ++ (f <$> l).
Proof.
  induction l as [|a l IH]; intros acc; csimpl.
  - by rewrite app_nil_r.
  - by rewrite IH, <- app_assoc.
Qed.

Lemma todo_lines_fmap plan : todo_lines plan = todo_line plan <$> commits plan.
Proof. unfold todo_lines. by rewrite append_loop_fmap. Qed.

Lemma append_cons x (a b : string) : String x a +:+ b = String x (a +:+ b).
Proof. reflexivity. Qed.

Lemma append_assoc (a b c : string) : (a +:+ b) +:+ c = a +:+ (b +:+ c).
Proof. induction a as [|x a IH]; [done |]. by rewrite !append_cons, IH. Qed.

Lemma append_empty_r (a : string) : a +:+ "" = a.
Proof. induction a as [|x a IH]; [done |]. by rewrite append_cons, IH. Qed.

(** Joining with a separator and closing with it terminates every
    element, provided there is at least one. *)
Lemma join_terminated sep x l :
  join sep (x :: l) +:+ sep = foldr (λ y acc, y +:+ sep +:+ acc) "" (x :: l).
Proof.
  revert x. induction l as [|y l IH]; intros x.
  - simpl. by rewrite append_empty_r.
  - change (join sep (x :: y :: l)) with (x +:+ sep +:+ join sep (y :: l)).
    rewrite !append_assoc, IH. done.
Qed.

Lemma count_newlines_app a b :
  count_newlines (a +:+ b) = count_newlines a + count_newlines b.
Proof.
  induction a as [|x a IH]; [done |].
  rewrite append_cons. simpl. rewrite IH. lia.
Qed.

Lemma count_newlines_terminated l :
  count_newlines (foldr (λ y acc, y +:+ newline +:+ acc) "" l)
  = sum_list_with count_newlines l + length l.
Proof.
  induction l as [|y l IH]; simpl; [done |].
  rewrite !count_newlines_app, IH. simpl. lia.
Qed.

(** Newlines of the rendered text: those of the lines, and one per line;
    the text of an empty plan is a lone newline. *)
Lemma count_newlines_render plan :
  count_newlines (render_todo_lines plan)
  = sum_list_with count_newlines (todo_lines plan)
    + Nat.max 1 (length (commits plan)).
Proof.
  unfold render_todo_lines. rewrite todo_lines_fmap.
  destruct (commits plan) as [|c cs]; [done |].
  rewrite fmap_cons, join_terminated, count_newlines_terminated.
  simpl. rewrite length_fmap. lia.
Qed.

Lemma count_newlines_todo_line plan c :
  count_newlines (todo_line plan c)
  = count_newlines (short_id c) + count_newlines (message c).
Proof.
  unfold todo_line, action. rewrite !count_newlines_app.
  by case_bool_decide.
Qed.

(** Splitting at newlines gives back a line that has none. *)
Lemma split_newlines_line a s :
  count_newlines a = 0 →
  split_newlines (a +:+ newline +:+ s) = a :: split_newlines s.
Proof.
  induction a as [|x a IH]; intros Hnl; [done |].
  rewrite append_cons. simpl in *.
  destruct (Ascii.eqb x "010"); [lia |].
  by rewrite IH.
Qed.

Lemma split_newlines_terminated ls :
  Forall (λ l, count_newlines l = 0) ls →
  split_newlines (foldr (λ l acc, l +:+ newline +:+ acc) "" ls) = ls ++ [""].
Proof.
  induction 1 as [|l ls Hl _ IH]; [done |].
  simpl. by rewrite split_newlines_line, IH.
Qed.

(** When no identifier and no message holds a newline, the pieces of the
    rendered text are the instruction lines, then the empty piece after
    the final newline. *)
Lemma render_split_newlines plan :
  commits plan ≠ [] →
  Forall (λ c, count_newlines (short_id c) = 0 ∧ count_newlines (message c) = 0)
         (commits plan) →
  split_newlines (render_todo_lines plan) = todo_lines plan ++ [""].
Proof.
  intros Hne Hclean. unfold render_todo_lines. rewrite todo_lines_fmap.
  destruct (commits plan) as [|c cs]; [done |].
  rewrite fmap_cons, join_terminated. apply split_newlines_terminated.
  rewrite <- fmap_cons. apply Forall_fmap.
  eapply Forall_impl; [exact Hclean |].
  intros d [Hs Hm]. simpl. rewrite count_newlines_todo_line. lia.
Qed.

Lemma fixup_line_iff plan c :
  is_fixup_line (todo_line plan c) ↔ oid c ∈ squash_set plan.
Proof.
  unfold is_fixup_line, todo_line, action.
  case_bool_decide; split; intros H'; try done;
    first [reflexivity | by vm_compute in H'].
Qed.

Lemma pick_line_iff plan c :
  is_pick_line (todo_line plan c) ↔ oid c ∉ squash_set plan.
Proof.
  unfold is_pick_line, todo_line, action.
  case_bool_decide; split; intros H'; try done;
    first [reflexivity | by vm_compute in H'].
Qed.

(** With distinct identifiers the oldest commit is never folded. *)
Lemma first_commit_not_squashed ta tm c cs :
  NoDup (oid <$> c :: cs) →
  oid c ∉ build_squash_set (partition_ci_runs ta tm (c :: cs)).
Proof.
  intros Hnd Hin.
  apply squashed_iff_later_member in Hin as (run & Hrun & _ & i & Hi & Hc);
    [|done|by apply list_elem_of_here].
  apply list_elem_of_lookup in Hrun as [k Hk].
  rewrite partition_closed_form in Hk.
  destruct (runs_from_locate ta tm (c :: cs) [] k run) as
    (pre & post & Heq & _); [done.. |].
  simpl in Heq.
  assert ((c :: cs) !! (length pre + i) = Some c) as Hpos.
  { rewrite Heq, lookup_app_r by lia.
    replace (length pre + i - length pre) with i by lia.
    by apply lookup_app_l_Some. }
  apply NoDup_fmap_1 in Hnd.
  assert (length pre + i = 0); [|lia].
  by eapply (NoDup_lookup (c :: cs) _ _ c).
Qed.

(** C2. [render_todo_lines] writes exactly one instruction line per
    element of [plan.commits], in the order of [plan.commits]; the line of
    a commit is [<action> <short_id> <message>] with action [fixup] when
    the commit's identifier is in the fold set of the plan and [pick]
    otherwise. The text returned is made of these lines and nothing else:
    each line, in that order, followed by a newline (a lone newline when
    the plan has no commit). *)
Theorem render_one_line_per_commit plan :
  let line := λ c,
    (if bool_decide (oid c ∈ squash_set plan) then "fixup" else "pick")
    +:+ " " +:+ short_id c +:+ " " +:+ message c in
  todo_lines plan = line <$> commits plan
  ∧ length (todo_lines plan) = length (commits plan)
  ∧ render_todo_lines plan
    = match commits plan with
      | [] => newline
      | _ :: _ => foldr (λ l text, l +:+ newline +:+ text) "" (line <$> commits plan)
      end.
Proof.
  intros line. change line with (todo_line plan). split_and!.
  - apply todo_lines_fmap.
  - by rewrite todo_lines_fmap, length_fmap.
  - unfold render_todo_lines. rewrite todo_lines_fmap.
    destruct (commits plan) as [|c cs]; [done |].
    rewrite fmap_cons. apply join_terminated.
Qed.

(** Here too the distinctness of the identifiers is what is used: were
    two commits of the sequence to carry the same identifier, the first
    rendered line could be a fold instruction. *)
Lemma fixup_first_on_repeated_oid :
  ¬ fixups_follow_a_pick (todo_lines (plan_for "ci" "m" Probe.repeated)).
Proof.
  intros Hfollow.
  destruct (Hfollow 0 "fixup a m") as (j & _ & Hj & _); [reflexivity.. | lia].
Qed.

(** C8. The identifiers of a commit sequence are pairwise distinct (the
    invariant of the data model); for such a sequence, every fold line
    of the instruction sequence rendered from
    [make_squash_plan(commits, partition_ci_runs(commits, ...))] has a
    keep line before it. *)
Theorem fixups_follow_a_pick_when_distinct ta tm cs :
  NoDup (oid <$> cs) →
  fixups_follow_a_pick (todo_lines (plan_for ta tm cs)).
Proof.
  intros Hnd i l Hi Hfix. unfold plan_for in *.
  rewrite todo_lines_fmap, plan_commits in Hi.
  apply list_lookup_fmap_Some in Hi as (c & -> & Hc).
  apply fixup_line_iff in Hfix. rewrite plan_squash_set in Hfix.
  destruct cs as [|c0 cs']; [done |].
  destruct i as [|i].
  - injection Hc as ->. by apply first_commit_not_squashed in Hfix.
  - exists 0, (todo_line (make_squash_plan (c0 :: cs')
                            (partition_ci_runs ta tm (c0 :: cs'))) c0).
    split_and!; [lia | |].
    + by rewrite todo_lines_fmap, plan_commits.
    + apply pick_line_iff. rewrite plan_squash_set.
      by apply first_commit_not_squashed.
Qed.

Lemma fixups_follow_a_pick_when_distinct_witness :
  NoDup (oid <$> Scenario.history)
  ∧ fixups_follow_a_pick
      (todo_lines (plan_for "ci@example.com" "CI: test run" Scenario.history)).
Proof.
  assert (NoDup (oid <$> Scenario.history)) as Hnd.
  { apply (bool_decide_unpack _). vm_compute. exact I. }
  split; [exact Hnd |].
  exact (fixups_follow_a_pick_when_distinct "ci@example.com" "CI: test run"
           Scenario.history Hnd).
Defined.

(** C9. For a plan with no commits [render_todo_lines] returns a single
    newline character, not the empty text; in general it returns the
    per-commit lines joined by newlines, followed by one newline, so that
    with at least one commit every line is terminated by a newline. *)
Theorem render_of_no_commits_is_a_newline :
  (∀ s rc tc,
     render_todo_lines {| commits := []; squash_set := s;
                          run_count := rc; total_squash_count := tc |}
     = newline)
  ∧ newline ≠ ""
  ∧ (∀ plan,
       render_todo_lines plan
       = join newline (todo_line plan <$> commits plan) +:+ newline)
  ∧ (∀ s rc tc c cs,
       let plan := {| commits := c :: cs; squash_set := s;
                      run_count := rc; total_squash_count := tc |} in
       render_todo_lines plan
       = foldr (λ l acc, l +:+ newline +:+ acc) "" (todo_line plan <$> c :: cs)).
Proof.
  split_and!; [done | done | |].
  - intros plan. unfold render_todo_lines. by rewrite todo_lines_fmap.
  - intros s rc tc c cs plan. unfold render_todo_lines.
    rewrite todo_lines_fmap. subst plan. cbn [commits].
    rewrite fmap_cons. apply join_terminated.
Qed.

(** C10. The message of a commit is the tail of its instruction line,
    character for character, newlines included; hence, when the message
    of some commit of the plan contains a newline, the rendered text has
    strictly more newline-terminated physical lines than the plan has
    commits. *)
Theorem render_keeps_message_newlines plan c :
  c ∈ commits plan → has_newline (message c) →
  (∃ head, todo_line plan c = head +:+ message c)
  ∧ length (commits plan) < count_newlines (render_todo_lines plan).
Proof.
  intros Hc Hnl. split.
  - exists (action plan c +:+ " " +:+ short_id c +:+ " ").
    unfold todo_line. by rewrite !append_assoc.
  - rewrite count_newlines_render.
    assert (count_newlines (todo_line plan c)
            ≤ sum_list_with count_newlines (todo_lines plan)) as Hle.
    { apply sum_list_with_in. rewrite todo_lines_fmap.
      apply list_elem_of_fmap. eauto. }
    rewrite count_newlines_todo_line in Hle. unfold has_newline in Hnl. lia.
Qed.

Lemma render_keeps_message_newlines_witness :
  length (commits Multiline.plan)
  < count_newlines (render_todo_lines Multiline.plan).
Proof.
  apply (render_keeps_message_newlines Multiline.plan Multiline.E).
  - do 2 apply list_elem_of_further. apply list_elem_of_here.
  - unfold has_newline. vm_compute. lia.
Defined.

(** ** The plan read in one pass *)

Section OnePass.
Context (ta tm : string).

Local Abbreviation matches := (matches_target ta tm).
Local Abbreviation follows := (follows_a_match ta tm).

Lemma follows_a_match_cons d cs c :
  follows (d :: cs) c ↔
  (matches d ∧ head cs = Some c ∧ matches c) ∨ follows cs c.
Proof.
  unfold follows_a_match. split.
  - intros (i & p & Hp & Hc & Hmp & Hmc). destruct i as [|i]; simpl in *.
    + left. simplify_eq. by rewrite head_lookup.
    + right. eauto 10.
  - intros [(Hd & Hc & Hmc) | (i & p & Hp & Hc & Hm)].
    + exists 0, d. rewrite head_lookup in Hc. done.
    + exists (S i), p. done.
Qed.

Lemma follows_a_match_nil c : ¬ follows [] c.
Proof. by intros (i & p & Hp & _). Qed.

(** The later members of the runs are the commits that match and come
    directly after a matching commit. *)
Lemma later_members_folded_from cs : ∀ cur,
  concat (drop 1 <$> runs_from ta tm cur cs)
  = drop 1 cur ++ folded_from ta tm (truthy cur) cs.
Proof.
  induction cs as [|c cs IH]; intros cur; simpl.
  - destruct cur; simpl; by rewrite ?app_nil_r.
  - destruct (is_ci ta tm c).
    + rewrite IH. destruct cur; simpl; [done |].
      rewrite !drop_0. by rewrite <- app_assoc.
    + rewrite fmap_app, concat_app, IH.
      destruct cur; simpl; by rewrite ?app_nil_r.
Qed.

Lemma elem_of_folded_from cs : ∀ prev c,
  c ∈ folded_from ta tm prev cs ↔
  (prev = true ∧ head cs = Some c ∧ matches c) ∨ follows cs c.
Proof.
  induction cs as [|d cs IH]; intros prev c; simpl.
  - split; [by intros ?%elem_of_nil |].
    intros [(_ & ? & _) | ?%follows_a_match_nil]; done.
  - rewrite follows_a_match_cons. destruct (is_ci ta tm d) eqn:Hd.
    + apply is_ci_true in Hd. rewrite elem_of_app, IH.
      destruct prev; simpl; set_solver.
    + apply is_ci_false in Hd. rewrite IH. naive_solver.
Qed.

Lemma folded_from_sublist cs : ∀ prev, folded_from ta tm prev cs `sublist_of` cs.
Proof.
  induction cs as [|d cs IH]; intros prev; simpl; [done |].
  destruct (is_ci ta tm d); [|by apply sublist_cons].
  destruct prev; simpl; [by apply sublist_skip | by apply sublist_cons].
Qed.

Lemma later_members_partition cs :
  concat (drop 1 <$> partition_ci_runs ta tm cs) = folded_from ta tm false cs.
Proof. rewrite partition_closed_form. apply later_members_folded_from. Qed.

Lemma plan_for_squash_set cs :
  squash_set (plan_for ta tm cs) = list_to_set (oid <$> folded_from ta tm false cs).
Proof.
  unfold plan_for. rewrite plan_squash_set, build_squash_set_list.
  by rewrite folded_oids_concat, later_members_partition.
Qed.
End OnePass.

Lemma elem_of_plan_for_squash_set ta tm cs x :
  x ∈ squash_set (plan_for ta tm cs) ↔
  ∃ c, follows_a_match ta tm cs c ∧ oid c = x.
Proof.
  rewrite plan_for_squash_set, elem_of_list_to_set, list_elem_of_fmap.
  setoid_rewrite elem_of_folded_from. naive_solver.
Qed.

(** X1. An identifier is in the fold set of the plan built from the runs
    of the sequence exactly when some commit carrying it matches the
    target signature and comes directly after a commit that matches too. *)
Theorem squash_set_follows_a_match ta tm cs x :
  x ∈ squash_set (make_squash_plan cs (partition_ci_runs ta tm cs)) ↔
  ∃ c, follows_a_match ta tm cs c ∧ oid c = x.
Proof.
  change (make_squash_plan cs (partition_ci_runs ta tm cs)) with (plan_for ta tm cs).
  split.
  - intros Hx. by apply elem_of_plan_for_squash_set.
  - intros Hc. by apply elem_of_plan_for_squash_set.
Qed.

Lemma follows_a_match_elem ta tm cs c : follows_a_match ta tm cs c → c ∈ cs.
Proof. intros (i & p & _ & Hc & _). apply list_elem_of_lookup. eauto. Qed.

Lemma follows_a_match_matches ta tm cs c :
  follows_a_match ta tm cs c → matches_target ta tm c.
Proof. by intros (i & p & _ & _ & _ & Hc). Qed.

(** With distinct identifiers, membership of a commit's identifier in the
    fold set is a fact about that commit's own position. *)
Lemma squashed_iff_follows ta tm cs c :
  NoDup (oid <$> cs) → c ∈ cs →
  (oid c ∈ squash_set (plan_for ta tm cs) ↔ follows_a_match ta tm cs c).
Proof.
  intros Hnd Hc. rewrite elem_of_plan_for_squash_set. split.
  - intros (d & Hd & Hoid).
    assert (d = c) as <-; [|done].
    eapply NoDup_fmap_elem_inj; eauto using follows_a_match_elem.
  - eauto.
Qed.

(** X2. With pairwise distinct identifiers, a commit that does not match
    the target signature is never folded: its instruction is
    [pick <short_id> <message>]. *)
Theorem non_matching_commit_is_picked ta tm cs c :
  NoDup (oid <$> cs) → c ∈ cs → ¬ matches_target ta tm c →
  let plan := make_squash_plan cs (partition_ci_runs ta tm cs) in
  (oid c ∉ squash_set plan)
  ∧ todo_line plan c = "pick " +:+ short_id c +:+ " " +:+ message c.
Proof.
  intros Hnd Hc Hno plan.
  assert (oid c ∉ squash_set plan) as Hout.
  { intros Hin. apply (squashed_iff_follows ta tm cs c Hnd Hc) in Hin.
    by apply follows_a_match_matches in Hin. }
  split; [done |]. unfold todo_line, action.
  by rewrite bool_decide_eq_false_2.
Qed.

Lemma non_matching_commit_is_picked_witness :
  todo_line (Scenario.plan_of Scenario.history) Scenario.C = "pick cccc Fix parser".
Proof.
  refine (proj2 (non_matching_commit_is_picked "ci@example.com" "CI: test run"
                   Scenario.history Scenario.C _ _ _)).
  - apply (bool_decide_unpack _). vm_compute. exact I.
  - do 2 apply list_elem_of_further. apply list_elem_of_here.
  - intros [Hauthor _]. discriminate Hauthor.
Defined.

Lemma squashed_iff_previous_matches ta tm cs i c :
  NoDup (oid <$> cs) → cs !! i = Some c →
  (oid c ∈ squash_set (plan_for ta tm cs) ↔
   ∃ j p, i = S j ∧ cs !! j = Some p
          ∧ matches_target ta tm p ∧ matches_target ta tm c).
Proof.
  intros Hnd Hi.
  assert (c ∈ cs) as Hc by (apply list_elem_of_lookup; eauto).
  rewrite (squashed_iff_follows ta tm cs c Hnd Hc). split.
  - intros (j & p & Hp & Hc' & Hmp & Hmc). exists j, p. split_and!; try done.
    apply NoDup_fmap_1 in Hnd. by eapply NoDup_lookup.
  - intros (j & p & -> & Hp & Hmp & Hmc). by exists j, p.
Qed.

(** X3. With pairwise distinct identifiers, the instruction written for
    the commit at position [i] is a [fixup] exactly when that commit
    matches the target signature and [i] is not 0 and the commit at
    position [i - 1] matches it too; otherwise it is a [pick]. *)
Theorem fixup_iff_previous_commit_matches ta tm cs i c :
  NoDup (oid <$> cs) → cs !! i = Some c →
  let plan := make_squash_plan cs (partition_ci_runs ta tm cs) in
  todo_lines plan !! i = Some (todo_line plan c)
  ∧ (is_fixup_line (todo_line plan c) ↔
     ∃ j p, i = S j ∧ cs !! j = Some p
            ∧ matches_target ta tm p ∧ matches_target ta tm c)
  ∧ (is_pick_line (todo_line plan c) ↔ ¬ is_fixup_line (todo_line plan c)).
Proof.
  intros Hnd Hi plan. split_and!.
  - subst plan. by rewrite todo_lines_fmap, plan_commits, list_lookup_fmap, Hi.
  - rewrite fixup_line_iff. by apply squashed_iff_previous_matches.
  - by rewrite fixup_line_iff, pick_line_iff.
Qed.

Lemma fixup_iff_previous_commit_matches_witness :
  is_fixup_line (todo_line (Scenario.plan_of Scenario.history) Scenario.B).
Proof.
  pose proof (fixup_iff_previous_commit_matches "ci@example.com" "CI: test run"
                Scenario.history 1 Scenario.B) as H.
  apply H.
  - apply (bool_decide_unpack _). vm_compute. exact I.
  - reflexivity.
  - exists 0, Scenario.A. by split_and!.
Defined.

Lemma squash_needed_follows ta tm cs :
  total_squash_count (plan_for ta tm cs) ≠ 0 → ∃ c, follows_a_match ta tm cs c.
Proof.
  unfold plan_for at 1. rewrite plan_total_squash_count.
  rewrite <- plan_squash_set with (cs := cs). fold (plan_for ta tm cs).
  intros Hsize.
  destruct (size_pos_elem_of (squash_set (plan_for ta tm cs))) as [x Hx]; [lia |].
  apply elem_of_plan_for_squash_set in Hx as (c & Hc & _). eauto.
Qed.

Lemma follows_squash_needed ta tm cs c :
  follows_a_match ta tm cs c → total_squash_count (plan_for ta tm cs) ≠ 0.
Proof.
  intros Hc. unfold plan_for at 1. rewrite plan_total_squash_count.
  rewrite <- plan_squash_set with (cs := cs). fold (plan_for ta tm cs).
  rewrite size_non_empty_iff. intros Hempty.
  assert (oid c ∈ squash_set (plan_for ta tm cs)) as Hin
    by (apply elem_of_plan_for_squash_set; eauto).
  set_solver.
Qed.

(** X4. [total_squash_count] of the plan built from the runs of the
    sequence is 0 exactly when no commit that matches the target
    signature comes directly after another one that matches. *)
Theorem nothing_to_squash_iff_no_consecutive_matches ta tm cs :
  total_squash_count (make_squash_plan cs (partition_ci_runs ta tm cs)) = 0 ↔
  ¬ ∃ c, follows_a_match ta tm cs c.
Proof.
  change (make_squash_plan cs (partition_ci_runs ta tm cs)) with (plan_for ta tm cs).
  split.
  - intros Hzero (c & Hc). by apply follows_squash_needed in Hc.
  - intros Hnone.
    destruct (decide (total_squash_count (plan_for ta tm cs) = 0)) as [|Hne]; [done |].
    destruct Hnone. by apply squash_needed_follows.
Qed.

(** ** Counting *)

Lemma size_list_to_set_le (l : list string) :
  size (list_to_set l : gset string) ≤ length l.
Proof.
  induction l as [|x l IH]; csimpl; [done |].
  rewrite size_union_alt, size_singleton.
  etrans; [|apply le_n_S, IH].
  apply le_n_S, subseteq_size. set_solver.
Qed.

Lemma runs_from_nonempty ta tm cs : ∀ cur,
  Forall (λ run, run ≠ []) (runs_from ta tm cur cs).
Proof.
  induction cs as [|c cs IH]; intros cur; simpl.
  - destruct cur; by repeat constructor.
  - destruct (is_ci ta tm c); [apply IH |].
    apply Forall_app. split; [|apply IH].
    destruct cur; by repeat constructor.
Qed.

Lemma length_later_members (runs : list Run) :
  Forall (λ run, run ≠ []) runs →
  length (concat (drop 1 <$> runs)) + length runs = length (concat runs).
Proof.
  induction 1 as [|run runs Hrun _ IH]; csimpl; [done |].
  rewrite !length_app, length_drop. destruct run; [done |]. simpl in *. lia.
Qed.

Lemma length_folded_from ta tm cs :
  length (folded_from ta tm false cs) + length (partition_ci_runs ta tm cs)
  = length (filter (matches_target ta tm) cs).
Proof.
  rewrite <- later_members_partition, <- partition_concat_filter.
  apply length_later_members. rewrite partition_closed_form.
  apply runs_from_nonempty.
Qed.

Lemma squash_count_bound ta tm cs :
  size (squash_set (plan_for ta tm cs)) ≤ length (folded_from ta tm false cs).
Proof.
  rewrite plan_for_squash_set.
  pose proof (size_list_to_set_le (oid <$> folded_from ta tm false cs)) as Hle.
  by rewrite length_fmap in Hle.
Qed.

Lemma squash_count_distinct ta tm cs :
  NoDup (oid <$> cs) →
  size (squash_set (plan_for ta tm cs)) = length (folded_from ta tm false cs).
Proof.
  intros Hnd. rewrite plan_for_squash_set, size_list_to_set, length_fmap; [done |].
  eapply sublist_NoDup; [exact Hnd |].
  apply fmap_sublist, folded_from_sublist.
Qed.

Lemma plan_for_total_squash_count ta tm cs :
  total_squash_count (plan_for ta tm cs) = size (squash_set (plan_for ta tm cs)).
Proof. unfold plan_for. by rewrite plan_total_squash_count, plan_squash_set. Qed.

(** X5. The number of commits folded plus the number of runs never
    exceeds the number of commits that match the target signature; with
    pairwise distinct identifiers the two are equal, that is, each run
    keeps one commit and folds all its others. *)
Theorem squash_and_run_counts ta tm cs :
  let plan := make_squash_plan cs (partition_ci_runs ta tm cs) in
  let matching := length (filter (matches_target ta tm) cs) in
  total_squash_count plan + run_count plan ≤ matching
  ∧ (NoDup (oid <$> cs) → total_squash_count plan + run_count plan = matching).
Proof.
  intros plan matching. subst plan matching.
  change (make_squash_plan cs (partition_ci_runs ta tm cs)) with (plan_for ta tm cs).
  rewrite plan_for_total_squash_count. unfold plan_for at 2 4.
  rewrite plan_run_count, <- length_folded_from. split.
  - pose proof (squash_count_bound ta tm cs). lia.
  - intros Hnd. by rewrite squash_count_distinct.
Qed.

Lemma squash_and_run_counts_witness :
  NoDup (oid <$> Scenario.history)
  ∧ total_squash_count (Scenario.plan_of Scenario.history)
    + run_count (Scenario.plan_of Scenario.history)
    = length (filter (matches_target "ci@example.com" "CI: test run") Scenario.history).
Proof.
  assert (NoDup (oid <$> Scenario.history)) as Hnd.
  { apply (bool_decide_unpack _). vm_compute. exact I. }
  split; [exact Hnd |].
  exact (proj2 (squash_and_run_counts "ci@example.com" "CI: test run"
                  Scenario.history) Hnd).
Defined.

Lemma filter_fixup_lines plan (l : list Commit) :
  length (filter is_fixup_line (todo_line plan <$> l))
  = length (filter (λ c, oid c ∈ squash_set plan) l).
Proof.
  induction l as [|c l IH]; csimpl; [done |].
  rewrite !filter_cons. pose proof (fixup_line_iff plan c) as Hiff.
  destruct (decide (is_fixup_line (todo_line plan c))),
    (decide (oid c ∈ squash_set plan)); simpl; try tauto; by rewrite IH.
Qed.

Lemma filter_pick_lines plan (l : list Commit) :
  length (filter is_pick_line (todo_line plan <$> l))
  = length (filter (λ c, oid c ∉ squash_set plan) l).
Proof.
  induction l as [|c l IH]; csimpl; [done |].
  rewrite !filter_cons. pose proof (pick_line_iff plan c) as Hiff.
  destruct (decide (is_pick_line (todo_line plan c))),
    (decide (oid c ∉ squash_set plan)); simpl; try tauto; by rewrite IH.
Qed.

Lemma length_filter_complement {A} (P : A → Prop) `{!∀ x, Decision (P x)} (l : list A) :
  length (filter P l) + length (filter (λ x, ¬ P x) l) = length l.
Proof.
  induction l as [|x l IH]; [done |].
  rewrite !filter_cons. destruct (decide (P x)), (decide (¬ P x)); simpl; try tauto; lia.
Qed.

(** With distinct identifiers, the commits whose identifier is in the
    fold set are the commits that follow a match. *)
Lemma squashed_commits_perm ta tm cs :
  NoDup (oid <$> cs) →
  filter (λ c, oid c ∈ squash_set (plan_for ta tm cs)) cs
  ≡ₚ folded_from ta tm false cs.
Proof.
  intros Hnd. pose proof (NoDup_fmap_1 _ _ Hnd) as Hcs.
  apply NoDup_Permutation.
  - by apply NoDup_filter.
  - eapply sublist_NoDup; [exact Hcs | apply folded_from_sublist].
  - intros c. rewrite list_elem_of_filter, elem_of_folded_from. split.
    + intros [Hin Hc]. right. by apply (squashed_iff_follows ta tm cs c Hnd Hc).
    + intros [(? & _) | Hf]; [done |].
      pose proof (follows_a_match_elem _ _ _ _ Hf) as Hc.
      split; [|done]. by apply (squashed_iff_follows ta tm cs c Hnd Hc).
Qed.

(** X6. With pairwise distinct identifiers, the rendered instruction
    sequence has exactly [total_squash_count] fold lines, and its keep
    lines number the commits of the sequence less [total_squash_count]:
    this is how many commits the rebase leaves. *)
Theorem fixup_and_pick_line_counts ta tm cs :
  NoDup (oid <$> cs) →
  let plan := make_squash_plan cs (partition_ci_runs ta tm cs) in
  length (filter is_fixup_line (todo_lines plan)) = total_squash_count plan
  ∧ length (filter is_pick_line (todo_lines plan))
    = length cs - total_squash_count plan.
Proof.
  intros Hnd plan.
  assert (length (filter is_fixup_line (todo_lines plan)) = total_squash_count plan)
    as Hfix.
  { subst plan. rewrite todo_lines_fmap, plan_commits, filter_fixup_lines.
    change (make_squash_plan cs (partition_ci_runs ta tm cs)) with (plan_for ta tm cs).
    rewrite (squashed_commits_perm ta tm cs Hnd).
    unfold plan_for. rewrite plan_total_squash_count.
    rewrite size_build_squash_set by done.
    by rewrite folded_oids_concat, length_fmap, later_members_partition. }
  split; [done |]. rewrite <- Hfix. subst plan.
  rewrite todo_lines_fmap, plan_commits, filter_fixup_lines, filter_pick_lines.
  pose proof (length_filter_complement
                (λ c, oid c ∈ squash_set (make_squash_plan cs (partition_ci_runs ta tm cs)))
                cs) as Hsum.
  unfold not in *. lia.
Qed.

Lemma fixup_and_pick_line_counts_witness :
  length (filter is_fixup_line (todo_lines (Scenario.plan_of Scenario.history)))
  = total_squash_count (Scenario.plan_of Scenario.history).
Proof.
  refine (proj1 (fixup_and_pick_line_counts "ci@example.com" "CI: test run"
                   Scenario.history _)).
  apply (bool_decide_unpack _). vm_compute. exact I.
Defined.

(** ** What the rebase keeps *)

Lemma filter_all {A} (P : A → Prop) `{!∀ x, Decision (P x)} (l : list A) :
  Forall P l → filter P l = l.
Proof.
  induction 1 as [|x l Hx _ IH]; [done |].
  by rewrite filter_cons_True, IH.
Qed.

Lemma truthy_take_1 {A} (l : list A) : truthy (take 1 l) = truthy l.
Proof. by destruct l. Qed.

(** Removing the folded commits shortens every run to its first member. *)
Lemma take_1_runs_from ta tm cs : ∀ cur,
  take 1 <$> runs_from ta tm cur cs
  = runs_from ta tm (take 1 cur) (kept_from ta tm (truthy cur) cs).
Proof.
  induction cs as [|c cs IH]; intros cur; simpl.
  - rewrite truthy_take_1. by destruct (truthy cur).
  - destruct (is_ci ta tm c) eqn:Hc.
    + rewrite IH. destruct cur as [|a cur]; simpl; [by rewrite Hc |].
      by rewrite take_0.
    + simpl. rewrite Hc, fmap_app, IH, truthy_take_1. by destruct (truthy cur).
Qed.

Lemma filter_kept_from ta tm (S : gset string) cs : ∀ prev,
  NoDup cs →
  (∀ c, c ∈ cs → (oid c ∈ S ↔ c ∈ folded_from ta tm prev cs)) →
  filter (λ c, oid c ∉ S) cs = kept_from ta tm prev cs.
Proof.
  induction cs as [|d cs IH]; intros prev Hnd HS; [done |].
  apply NoDup_cons in Hnd as [Hd Hnd].
  assert (∀ b, d ∉ folded_from ta tm b cs) as Hfresh.
  { intros b Hin. apply Hd.
    eapply elem_of_sublist; [exact Hin | apply folded_from_sublist]. }
  pose proof (HS d (list_elem_of_here _ _)) as Hhead.
  assert (filter (λ c, oid c ∉ S) cs = kept_from ta tm (is_ci ta tm d) cs) as Htail.
  { apply IH; [done |]. intros c Hc.
    rewrite (HS c) by by apply list_elem_of_further.
    simpl. destruct (is_ci ta tm d); [|done].
    rewrite elem_of_app. destruct prev; [|set_solver].
    rewrite list_elem_of_singleton. split; [|by right].
    intros [-> | ?]; [done | done]. }
  rewrite filter_cons. simpl in *. destruct (is_ci ta tm d).
  - destruct prev; simpl in *.
    + rewrite decide_False; [done |]. intros Hout. apply Hout, Hhead. set_solver.
    + rewrite decide_True; [by rewrite Htail |].
      intros Hin. apply Hhead in Hin. by apply Hfresh in Hin.
  - rewrite decide_True; [by rewrite Htail |].
    intros Hin. apply Hhead in Hin. by apply Hfresh in Hin.
Qed.

Lemma picked_kept_from ta tm cs :
  NoDup (oid <$> cs) →
  picked (plan_for ta tm cs) = kept_from ta tm false cs.
Proof.
  intros Hnd. unfold picked, plan_for. rewrite plan_commits.
  apply filter_kept_from; [by apply NoDup_fmap_1 in Hnd |].
  intros c Hc. pose proof (squashed_iff_follows ta tm cs c Hnd Hc) as Hiff.
  unfold plan_for in Hiff. rewrite Hiff, elem_of_folded_from. naive_solver.
Qed.

Lemma folded_oids_of_heads (runs : list Run) :
  concat (folded_oids <$> (take 1 <$> runs)) = [].
Proof.
  induction runs as [|run runs IH]; csimpl; [done |].
  rewrite IH. by destruct run.
Qed.

(** X7. With pairwise distinct identifiers, the commits the instruction
    sequence picks form a history in which every run of the original
    history has shrunk to its first commit; planning that history again
    folds nothing. *)
Theorem picked_commits_need_no_squash ta tm cs :
  NoDup (oid <$> cs) →
  let plan := make_squash_plan cs (partition_ci_runs ta tm cs) in
  partition_ci_runs ta tm (picked plan) = take 1 <$> partition_ci_runs ta tm cs
  ∧ total_squash_count
      (make_squash_plan (picked plan) (partition_ci_runs ta tm (picked plan))) = 0.
Proof.
  intros Hnd plan.
  assert (partition_ci_runs ta tm (picked plan)
          = take 1 <$> partition_ci_runs ta tm cs) as Hruns.
  { subst plan. change (make_squash_plan cs _) with (plan_for ta tm cs).
    rewrite (picked_kept_from ta tm cs Hnd), !partition_closed_form.
    by rewrite take_1_runs_from. }
  split; [done |].
  rewrite plan_total_squash_count, Hruns, build_squash_set_list.
  by rewrite folded_oids_of_heads.
Qed.

Lemma picked_commits_need_no_squash_witness :
  partition_ci_runs "ci@example.com" "CI: test run"
    (picked (Scenario.plan_of Scenario.history))
  = [[Scenario.A]; [Scenario.D]].
Proof.
  refine (proj1 (picked_commits_need_no_squash "ci@example.com" "CI: test run"
                   Scenario.history _)).
  apply (bool_decide_unpack _). vm_compute. exact I.
Defined.

(** X8. [build_squash_set] treats the runs independently: the set for a
    concatenation of run lists is the union of the sets of the parts,
    and the set does not depend on the order in which the runs are
    given. *)
Theorem build_squash_set_app_perm :
  (∀ runs1 runs2,
     build_squash_set (runs1 ++ runs2)
     = build_squash_set runs1 ∪ build_squash_set runs2)
  ∧ (∀ runs1 runs2, runs1 ≡ₚ runs2 → build_squash_set runs1 = build_squash_set runs2).
Proof.
  split.
  - intros runs1 runs2. rewrite !build_squash_set_list, fmap_app, concat_app.
    by rewrite list_to_set_app_L.
  - intros runs1 runs2 Hperm. apply set_eq. intros x.
    rewrite !elem_of_build_squash_set. by setoid_rewrite Hperm.
Qed.

Lemma build_squash_set_app_perm_witness :
  build_squash_set [[Scenario.A; Scenario.B]; [Scenario.C; Scenario.D]]
  = build_squash_set [[Scenario.C; Scenario.D]; [Scenario.A; Scenario.B]].
Proof.
  apply (proj2 build_squash_set_app_perm). apply Permutation_swap.
Defined.

(** X9. A non-empty sequence in which every commit matches the target
    signature is a single run; with pairwise distinct identifiers its
    first commit is picked and every other commit is folded. *)
Theorem all_matching_history_collapses ta tm cs :
  cs ≠ [] → Forall (matches_target ta tm) cs →
  let plan := make_squash_plan cs (partition_ci_runs ta tm cs) in
  partition_ci_runs ta tm cs = [cs]
  ∧ run_count plan = 1
  ∧ (NoDup (oid <$> cs) →
     total_squash_count plan = length cs - 1
     ∧ ∀ i c, cs !! i = Some c → (is_fixup_line (todo_line plan c) ↔ 0 < i)).
Proof.
  intros Hne Hall plan.
  assert (partition_ci_runs ta tm cs = [cs]) as Hruns.
  { rewrite partition_closed_form. by apply runs_from_all_matching. }
  split_and!; [done | |].
  - subst plan. by rewrite plan_run_count, Hruns.
  - intros Hnd. split.
    + subst plan. fold (plan_for ta tm cs).
      rewrite plan_for_total_squash_count, squash_count_distinct by done.
      pose proof (length_folded_from ta tm cs) as Hsum.
      rewrite Hruns, filter_all in Hsum by done. simpl in Hsum. lia.
    + intros i c Hi.
      rewrite fixup_line_iff. subst plan. fold (plan_for ta tm cs).
      rewrite (squashed_iff_previous_matches ta tm cs i c Hnd Hi). split.
      * intros (j & _ & -> & _). lia.
      * intros Hpos. destruct i as [|j]; [lia |].
        assert (is_Some (cs !! j)) as [p Hp].
        { apply lookup_lt_is_Some. apply lookup_lt_Some in Hi. lia. }
        exists j, p. split_and!; try done.
        -- eapply Forall_lookup_1; eauto.
        -- eapply Forall_lookup_1; eauto.
Qed.

(** ** Orchestration *)

Lemma str_truthy_true s : str_truthy s = true ↔ s ≠ "".
Proof. destruct s; naive_solver. Qed.

(** X10. [validate_config] returns a configuration exactly when its three
    arguments are all non-empty; the configuration then carries them
    unchanged, with [repo_path] set to ["."]. In every other case it
    leaves through [sys.exit(1)]. Arguments are not trimmed: text made
    of white space only is accepted. *)
Theorem validate_config_accepts_non_empty base author msg :
  (base ≠ "" ∧ author ≠ "" ∧ msg ≠ "" ↔
   validate_config base author msg = Finished (Config.mk base author msg "."))
  ∧ (base = "" ∨ author = "" ∨ msg = "" ↔
     validate_config base author msg = SysExit 1)
  ∧ validate_config " " " " " " = Finished (Config.mk " " " " " " ".").
Proof.
  unfold validate_config.
  destruct base, author, msg; simpl; split_and!; try done; naive_solver.
Qed.

Section OrchestrationFacts.
Context {Repository Rev : Type} (E : @Externals Repository Rev).

Lemma main_cases argv :
  main E argv = ([], SysExit 1)
  ∨ ∃ base author msg repo rev, reaches_history E argv base author msg repo rev.
Proof.
  unfold main.
  destruct argv as [|prog [|a1 [|a2 [|a3 [|a4 rest]]]]]; try by left.
  unfold validate_config.
  destruct (str_truthy a1) eqn:H1; [|by left].
  destruct (str_truthy a2) eqn:H2; [|by left].
  destruct (str_truthy a3) eqn:H3; [|by left]. simpl.
  apply str_truthy_true in H1, H2, H3.
  unfold load_repo. destruct (pygit2_Repository E ".") as [repo|] eqn:Hrepo; [|by left].
  unfold resolve_base_commit.
  destruct (revparse_single E repo a1) as [rev|] eqn:Hrev; [|by left].
  right. exists a1, a2, a3, repo, rev. unfold reaches_history. eauto 10.
Qed.

Lemma main_from_history argv base author msg repo rev :
  reaches_history E argv base author msg repo rev →
  main E argv =
  let cs := fetch_commits_since_base E repo rev in
  let plan := make_squash_plan cs (partition_ci_runs author msg cs) in
  if bool_decide (total_squash_count plan = 0) then ([], Finished tt)
  else
    let path := temp_name E in
    let '(ran, ending) := execute_rebase E (workdir E repo) base path in
    (WriteFile path (render_todo_lines plan) :: ran, ending).
Proof.
  intros ((prog & ->) & H1 & H2 & H3 & Hrepo & Hrev). unfold main.
  unfold validate_config.
  rewrite (proj2 (str_truthy_true base)), (proj2 (str_truthy_true author)),
    (proj2 (str_truthy_true msg)) by done.
  simpl. unfold load_repo. rewrite Hrepo. unfold resolve_base_commit. rewrite Hrev.
  destruct (fetch_commits_since_base E repo rev) as [|c cs] eqn:Hcs; [done |].
  simpl negb. cbv iota. cbv zeta. by case_bool_decide.
Qed.

Lemma reaches_history_unique argv base author msg repo rev base' author' msg' repo' rev' :
  reaches_history E argv base author msg repo rev →
  reaches_history E argv base' author' msg' repo' rev' →
  base' = base ∧ author' = author ∧ msg' = msg ∧ repo' = repo ∧ rev' = rev.
Proof.
  intros ((prog & ->) & _ & _ & _ & Hrepo & Hrev)
         ((prog' & Heq) & _ & _ & _ & Hrepo' & Hrev').
  simplify_eq. done.
Qed.
End OrchestrationFacts.

(** X11. [main] starts the rebase exactly when it was given three
    non-empty arguments, the current directory is a repository, the base
    reference resolves, and some commit after the base matches the
    author and message given and comes directly after another commit
    that matches them. *)
Theorem main_rebases_iff {Repository Rev : Type} (E : @Externals Repository Rev) argv :
  (∃ command cwd editor, Subprocess command cwd editor ∈ (main E argv).1) ↔
  ∃ prog base author msg repo rev c,
    argv = [prog; base; author; msg]
    ∧ base ≠ "" ∧ author ≠ "" ∧ msg ≠ ""
    ∧ pygit2_Repository E "." = Some repo
    ∧ revparse_single E repo base = Some rev
    ∧ follows_a_match author msg (fetch_commits_since_base E repo rev) c.
Proof.
  split.
  - intros (command & cwd & editor & Hin).
    destruct (main_cases E argv) as [Hstop | (base & author & msg & repo & rev & Hreach)].
    { rewrite Hstop in Hin. by apply elem_of_nil in Hin. }
    rewrite (main_from_history E _ _ _ _ _ _ Hreach) in Hin. cbv zeta in Hin.
    case_bool_decide as Hzero; [by apply elem_of_nil in Hin |].
    apply squash_needed_follows in Hzero as [c Hc].
    destruct Hreach as ((prog & ->) & ?). exists prog, base, author, msg, repo, rev, c.
    naive_solver.
  - intros (prog & base & author & msg & repo & rev & c & -> & H1 & H2 & H3 & Hrepo & Hrev & Hc).
    assert (reaches_history E [prog; base; author; msg] base author msg repo rev)
      as Hreach by (unfold reaches_history; eauto 10).
    rewrite (main_from_history E _ _ _ _ _ _ Hreach). cbv zeta.
    rewrite bool_decide_eq_false_2.
    + unfold execute_rebase. cbv zeta. do 3 eexists.
      apply list_elem_of_further, list_elem_of_here.
    + by apply follows_squash_needed in Hc.
Qed.

Lemma main_rebases_iff_witness :
  ∃ command cwd editor,
    Subprocess command cwd editor ∈ (main Demo.world Demo.argv).1.
Proof.
  apply (main_rebases_iff Demo.world Demo.argv).
  exists "collapse", "main", "ci@example.com", "CI: test run", (), (),
    (mkCommit "3333" "33" "ci@example.com" "CI: test run").
  split_and!; try done.
  exists 1, (mkCommit "2222" "22" "ci@example.com" "CI: test run").
  by split_and!.
Defined.

(** X12. Whatever its arguments and its surroundings, [main] either
    touches nothing outside the process, or does exactly three things in
    this order: it writes the rendered plan to the temporary file, runs
    [git rebase -i <base>] in the work tree with [GIT_SEQUENCE_EDITOR]
    set to [cat <that file> >], and unlinks that same file. In the second
    case it returns normally exactly when the rebase completed with
    return code 0. When [main] leaves through [sys.exit], the status
    is 1. *)
Theorem main_effects {Repository Rev : Type} (E : @Externals Repository Rev) argv :
  (∀ code, (main E argv).2 = SysExit code → code = 1%Z)
  ∧ ((main E argv).1 = []
     ∨ ∃ prog base author msg repo rev,
         argv = [prog; base; author; msg]
         ∧ pygit2_Repository E "." = Some repo
         ∧ revparse_single E repo base = Some rev
         ∧ let cs := fetch_commits_since_base E repo rev in
           let plan := make_squash_plan cs (partition_ci_runs author msg cs) in
           let command := ["git"; "rebase"; "-i"; base] in
           let editor := "cat " +:+ temp_name E +:+ " >" in
           (main E argv).1
           = [WriteFile (temp_name E) (render_todo_lines plan);
              Subprocess command (workdir E repo) editor;
              Unlink (temp_name E)]
           ∧ ((main E argv).2 = Finished tt ↔
              ∃ stderr,
                subprocess_run E command (workdir E repo) editor
                = Completed 0 stderr)).
Proof.
  destruct (main_cases E argv) as [Hstop | (base & author & msg & repo & rev & Hreach)].
  { rewrite Hstop. split; [by intros code [= <-] | by left]. }
  rewrite (main_from_history E _ _ _ _ _ _ Hreach). cbv zeta.
  case_bool_decide as Hzero; [split; [done | by left] |].
  unfold execute_rebase. cbv zeta. simpl.
  destruct Hreach as ((prog & ->) & _ & _ & _ & Hrepo & Hrev).
  destruct (subprocess_run E ["git"; "rebase"; "-i"; base] (workdir E repo)
              ("cat " +:+ temp_name E +:+ " >")) as [returncode stderr | what] eqn:Hrun.
  - case_bool_decide as Hcode.
    + split; [by intros code [= <-] |]. right.
      exists prog, base, author, msg, repo, rev. split_and!; try done.
      split; [done |]. intros (stderr' & Heq). rewrite Hrun in Heq. by simplify_eq.
    + split; [done |]. right.
      exists prog, base, author, msg, repo, rev. split_and!; try done.
      split; [|done]. intros _. exists stderr. rewrite Hrun.
      f_equal. destruct (decide (returncode = 0%Z)); [done | by destruct Hcode].
  - split; [by intros code [= <-] |]. right.
    exists prog, base, author, msg, repo, rev. split_and!; try done.
    split; [done |]. intros (stderr' & Heq). by rewrite Hrun in Heq.
Qed.

(** ** Histories without a match *)

Lemma runs_from_no_match ta tm cs :
  Forall (λ c, ¬ matches_target ta tm c) cs → runs_from ta tm [] cs = [].
Proof.
  induction 1 as [|c cs Hc _ IH]; simpl; [done |].
  by rewrite (proj2 (is_ci_false ta tm c) Hc), IH.
Qed.

(** X13. [partition_ci_runs] returns no run at all exactly when no commit
    of the sequence matches the target signature; this is when
    [make_squash_plan] takes its "No matching CI commits found" branch. *)
Theorem no_runs_iff_no_match ta tm cs :
  (partition_ci_runs ta tm cs = [] ↔ Forall (λ c, ¬ matches_target ta tm c) cs)
  ∧ (partition_ci_runs ta tm cs = [] ↔
     make_squash_plan_log (partition_ci_runs ta tm cs)
     = ["No matching CI commits found"]).
Proof.
  split.
  - split.
    + intros Hruns. pose proof (partition_concat_filter ta tm cs) as Hcat.
      rewrite Hruns in Hcat. simpl in Hcat.
      apply Forall_forall. intros c Hc Hm.
      by apply (filter_nil_not_elem_of _ _ c (eq_sym Hcat) Hm).
    + intros Hnone. rewrite partition_closed_form. by apply runs_from_no_match.
  - unfold make_squash_plan_log, log_plan_summary.
    destruct (partition_ci_runs ta tm cs) as [|run runs]; [done |].
    simpl. split; [done |]. intros Heq. injection Heq as _ Htail.
    by destruct (imap _ runs).
Qed.

Lemma no_runs_iff_no_match_witness :
  partition_ci_runs "ci@example.com" "CI: test run" [Scenario.C; Scenario.C] = [].
Proof.
  apply (proj1 (no_runs_iff_no_match "ci@example.com" "CI: test run"
                  [Scenario.C; Scenario.C])).
  repeat constructor; intros [Hauthor _]; discriminate Hauthor.
Defined.

(** X14. [commit_from_pygit2] stores the message stripped, while the
    message given on the command line is compared as it is. Hence, if
    stripping the target message changes it (it starts or ends with white
    space, a final newline for instance), no commit read from the
    repository matches and the partitioner finds no run. ([str.strip] is
    idempotent; this is assumed of the messages it is applied to.) *)
Theorem unstripped_target_never_matches
    {Repository Rev : Type} (E : @Externals Repository Rev) ta tm repo rev :
  str_strip E tm ≠ tm →
  (∀ raw, raw ∈ walk_since E repo rev →
     str_strip E (str_strip E (git_message raw)) = str_strip E (git_message raw)) →
  Forall (λ c, ¬ matches_target ta tm c) (fetch_commits_since_base E repo rev)
  ∧ partition_ci_runs ta tm (fetch_commits_since_base E repo rev) = [].
Proof.
  intros Htm Hidem.
  assert (Forall (λ c, ¬ matches_target ta tm c) (fetch_commits_since_base E repo rev))
    as Hnone.
  { unfold fetch_commits_since_base. apply Forall_fmap, Forall_forall.
    intros raw Hraw [_ Hmsg]. simpl in Hmsg. apply Htm.
    rewrite <- Hmsg. by apply Hidem. }
  split; [done |]. rewrite partition_closed_form. by apply runs_from_no_match.
Qed.

Lemma unstripped_target_never_matches_witness :
  partition_ci_runs "ci@example.com" ("CI: test run" +:+ newline)
    (fetch_commits_since_base Demo.world () ()) = [].
Proof.
  refine (proj2 (unstripped_target_never_matches Demo.world "ci@example.com"
                   ("CI: test run" +:+ newline) () () _ _)).
  - vm_compute. discriminate.
  - intros raw Hraw. simpl in Hraw.
    repeat (apply elem_of_cons in Hraw as [-> | Hraw]); try reflexivity.
    by apply elem_of_nil in Hraw.
Defined.

(** ** The summary *)

Lemma truthy_nonempty {A} (l : list A) : l ≠ [] → truthy l = true.
Proof. by destruct l. Qed.

Lemma pretty_Z_of_nat (n : nat) : pretty (Z.of_nat n) = pretty n.
Proof. by destruct n. Qed.

Lemma sum_list_lengths {A} (ls : list (list A)) :
  sum_list (length <$> ls) = length (concat ls).
Proof.
  induction ls as [|l ls IH]; csimpl; [done |].
  by rewrite length_app, IH.
Qed.

(** X15. For the runs of the sequence, when there is at least one, the
    summary that [make_squash_plan] logs opens with the number of runs
    and the number of commits of the sequence that match the target
    signature, gives for the [k]-th run its length and that length less
    one (never a negative number), and closes with
    [total_squash_count]. *)
Theorem summary_of_partition ta tm cs :
  let runs := partition_ci_runs ta tm cs in
  let plan := make_squash_plan cs runs in
  runs ≠ [] →
  make_squash_plan_log runs
  = ["Found " +:+ pretty (run_count plan) +:+ " run(s) of CI commits ("
       +:+ pretty (length (filter (matches_target ta tm) cs)) +:+ " commits total)"]
    ++ imap (λ k run,
         "  Run " +:+ pretty (S k) +:+ ": " +:+ pretty (length run)
           +:+ " commits, will squash " +:+ pretty (length run - 1)
           +:+ " into the first") runs
    ++ ["Will squash " +:+ pretty (total_squash_count plan) +:+ " total commits"].
Proof.
  intros runs plan Hne. subst plan.
  rewrite plan_run_count, plan_total_squash_count.
  unfold make_squash_plan_log, log_plan_summary.
  rewrite (truthy_nonempty runs Hne).
  rewrite sum_list_lengths. subst runs. rewrite partition_concat_filter.
  f_equal. f_equal. apply imap_ext. intros k run Hk. simpl.
  assert (run ≠ []) as Hrun.
  { pose proof (runs_from_nonempty ta tm cs []) as Hall.
    rewrite <- partition_closed_form in Hall.
    by apply (Forall_lookup_1 _ _ _ _ Hall Hk). }
  replace (Z.of_nat (length run) - 1)%Z with (Z.of_nat (length run - 1)).
  - by rewrite pretty_Z_of_nat.
  - destruct run; [done |]. simpl. lia.
Qed.

Lemma summary_of_partition_witness :
  make_squash_plan_log (Scenario.part Scenario.history)
  = ["Found 2 run(s) of CI commits (3 commits total)";
     "  Run 1: 2 commits, will squash 1 into the first";
     "  Run 2: 1 commits, will squash 0 into the first";
     "Will squash 1 total commits"].
Proof.
  unfold Scenario.part.
  rewrite (summary_of_partition "ci@example.com" "CI: test run" Scenario.history);
    [|done].
  vm_compute. reflexivity.
Defined.

(** ** The properties above at work on the scenarios *)

Lemma squash_set_follows_a_match_witness :
  oid Scenario.B ∈ squash_set (Scenario.plan_of Scenario.history).
Proof.
  apply (squash_set_follows_a_match "ci@example.com" "CI: test run"
           Scenario.history (oid Scenario.B)).
  exists Scenario.B. split; [|done].
  exists 0, Scenario.A. by split_and!.
Defined.

Lemma nothing_to_squash_iff_no_consecutive_matches_witness :
  ¬ ∃ c, follows_a_match "ci@example.com" "CI: test run" [Scenario.A; Scenario.C] c.
Proof.
  apply (nothing_to_squash_iff_no_consecutive_matches "ci@example.com" "CI: test run"
           [Scenario.A; Scenario.C]).
  reflexivity.
Defined.

Lemma all_matching_history_collapses_witness :
  partition_ci_runs "ci@example.com" "CI: test run" [Scenario.A; Scenario.B; Scenario.D]
  = [[Scenario.A; Scenario.B; Scenario.D]].
Proof.
  refine (proj1 (all_matching_history_collapses "ci@example.com" "CI: test run"
                   [Scenario.A; Scenario.B; Scenario.D] _ _)).
  - discriminate.
  - by repeat constructor.
Defined.

Lemma validate_config_accepts_non_empty_witness :
  validate_config "main" "" "CI: test run" = SysExit 1.
Proof.
  apply (proj1 (proj2 (validate_config_accepts_non_empty "main" "" "CI: test run"))).
  right. left. reflexivity.
Defined.
